(** * Plugin catalog synchronisation (package [plugin])

    Shallow embedding of the plugin manager: [GetLookupFn], [Populate],
    [downloadZip] and [traverseAndUpsertPlugins], together with the parts of
    the Go standard library and of the store interface they rely on. *)

From Stdlib Require Import Ascii String.
From stdpp Require Import base option list strings pretty gmap fin_maps.

Open Scope string_scope.
Open Scope list_scope.

(** ** Go's [path/filepath.Match]

    The pattern handed to [Match] by the plugin manager is the constant
    ["**/plugins/*/*.yaml"]: it is built from literal bytes and ['*'] only.
    The model below follows the library's algorithm ([Match], [scanChunk],
    [matchChunk]) on that fragment; character classes, ['?'] and the escape
    byte are not interpreted.  On this fragment no pattern is malformed, so
    [ErrBadPattern] is never produced. *)
Module filepath.

Definition Separator : ascii := "/"%char.

Inductive MatchResult :=
| Matched (matched : bool)
| ErrBadPattern.

(** [strings.Contains name string(Separator)]. *)
Fixpoint containsSeparator (name : string) : bool :=
  match name with
  | EmptyString => false
  | String c name' => if Ascii.eqb c Separator then true else containsSeparator name'
  end.

(** The leading run of stars of [scanChunk]: the remaining pattern and
    whether a star was seen. *)
Fixpoint skipStars (pattern : string) : bool * string :=
  match pattern with
  | String "*"%char pattern' => (true, snd (skipStars pattern'))
  | _ => (false, pattern)
  end.

(** The scan of [scanChunk]: the chunk runs up to the next star. *)
Fixpoint scanLiteral (pattern : string) : string * string :=
  match pattern with
  | EmptyString => (EmptyString, EmptyString)
  | String c pattern' =>
      if Ascii.eqb c "*"%char then (EmptyString, pattern)
      else let '(chunk, rest) := scanLiteral pattern' in (String c chunk, rest)
  end.

(** [scanChunk] gets the next segment of the pattern, which is a
    non-star string possibly preceded by stars. *)
Definition scanChunk (pattern : string) : bool * string * string :=
  let '(star, pattern) := skipStars pattern in
  let '(chunk, rest) := scanLiteral pattern in
  (star, chunk, rest).

(** [matchChunk] checks whether [chunk] matches the beginning of [s]; if
    so it returns the remainder of [s].  The chunk holds literals only. *)
Fixpoint matchChunk (chunk s : string) : option string :=
  match chunk with
  | EmptyString => Some s
  | String c chunk' =>
      match s with
      | EmptyString => None
      | String d s' => if Ascii.eqb c d then matchChunk chunk' s' else None
      end
  end.

(** The inner loop of [Match] after a star: look for a match skipping
    [i+1] bytes, never skipping a separator.  [last] says that the pattern
    is exhausted, in which case the name must be exhausted too. *)
Fixpoint skipAndMatch (chunk : string) (last : bool) (name : string) : option string :=
  match name with
  | EmptyString => None
  | String c name' =>
      if Ascii.eqb c Separator then None
      else match matchChunk chunk name' with
           | Some t =>
               if last && negb (String.eqb t EmptyString)
               then skipAndMatch chunk last name'
               else Some t
           | None => skipAndMatch chunk last name'
           end
  end.

(** The [Pattern:] loop of [Match].  Every round consumes at least one
    byte of the pattern, so the length of the pattern bounds the number
    of rounds; [None] signals that the bound was too small, which
    [matchLoop_rounds] below excludes. *)
Fixpoint matchLoop (rounds : nat) (pattern name : string) : option MatchResult :=
  match pattern with
  | EmptyString => Some (Matched (String.eqb name EmptyString))
  | _ =>
      match rounds with
      | O => None
      | S rounds =>
          let '(star, chunk, rest) := scanChunk pattern in
          if star && String.eqb chunk EmptyString
          then Some (Matched (negb (containsSeparator name)))
          else
            let skipping :=
              if star
              then match skipAndMatch chunk (String.eqb rest EmptyString) name with
                   | Some t => matchLoop rounds rest t
                   | None => Some (Matched false)
                   end
              else Some (Matched false) in
            match matchChunk chunk name with
            | Some t =>
                if String.eqb t EmptyString || negb (String.eqb rest EmptyString)
                then matchLoop rounds rest t
                else skipping
            | None => skipping
            end
      end
  end.

Definition Match (pattern name : string) : MatchResult :=
  match matchLoop (String.length pattern) pattern name with
  | Some r => r
  | None => ErrBadPattern
  end.

(** A name, or part of one, that does not cross a directory. *)
Definition noSeparator (s : string) : Prop := containsSeparator s = false.

(** One round of the loop on a starred chunk: try the chunk where the
    name stands, then after skipping bytes. *)
Definition seek (chunk : string) (last : bool) (name : string) : option string :=
  match matchChunk chunk name with
  | Some t =>
      if String.eqb t EmptyString || negb last then Some t
      else skipAndMatch chunk last name
  | None => skipAndMatch chunk last name
  end.

End filepath.


(** ** Data model *)

(** Go's [error] values are modelled by their message; [fmt.Errorf] with
    [%w] prefixes the wrapped message. *)
Definition error := string.

Definition Errorf (msg : string) (err : error) : error := msg +:+ ": " +:+ err.

Module types.

(** [types.Plugin], with the fields the manager reads and writes. *)
Record Plugin := mkPlugin {
  UID : string;
  Description : string;
  Typ : string;
  Spec : string;
  Logo : string;
}.

(** Modelled from the spec: [Plugin.Matches] is declared outside the files
    at hand.  A descriptor's content identity is (type, description, raw
    manifest text, logo), compared byte for byte. *)
Definition Matches (plugin v : Plugin) : bool :=
  String.eqb (Typ plugin) (Typ v)
  && String.eqb (Description plugin) (Description v)
  && String.eqb (Spec plugin) (Spec v)
  && String.eqb (Logo plugin) (Logo v).

Definition contentIdentity (p : Plugin) : string * string * string * string :=
  (Typ p, Description p, Spec p, Logo p).

End types.

Module v1yaml.

(** The variants of [Config.Spec] the manager distinguishes. *)
Inductive ConfigSpec :=
| PluginStep (Description : string)
| PluginStage (Description : string)
| OtherSpec.

Record Config := mkConfig {
  Name : string;
  Typ : string;
  Spec : ConfigSpec;
}.

End v1yaml.

(** What opening a stream and copying it with [io.Copy] yields. *)
Inductive Stream :=
| OpenFails (err : error)
| CopyFails (err : error)
| Contents (data : string).

Module zip.

(** An archive entry: [file.Name] and what [file.Open] gives. *)
Record File := mkFile {
  Name : string;
  Open : Stream;
}.

(** [zip.ReadCloser]: the entries [rc.File] in archive order and the
    by-name access [rc.Open]. *)
Record ReadCloser := mkReadCloser {
  rc_File : list File;
  rc_Open : string -> Stream;
}.

End zip.

(** ** Logging ([zerolog]) *)

Inductive Level := Warn | Info.

Record LogEntry := mkLog {
  log_level : Level;
  log_err : option error;
  log_name : option string;
  log_msg : string;
}.

(** ** The store collaborator ([store.PluginStore])

    The manager only sees the interface.  Every operation may fail and may
    change the state of the store. *)
Class PluginStore (S : Type) := {
  ListAll : S -> (error + list types.Plugin) * S;
  Find : string -> string -> S -> (error + types.Plugin) * S;
  Create : types.Plugin -> S -> option error * S;
  Update : types.Plugin -> S -> option error * S;
}.

(** The calls a manager makes on its store, in the order it makes them. *)
Inductive StoreCall :=
| CallListAll
| CallFind (name version : string)
| CallCreate (plugin : types.Plugin)
| CallUpdate (plugin : types.Plugin).

(** ** The world a pass runs in: the store, the record of the calls made on
    it, the log, and the local file system. *)
Record World (S : Type) := mkWorld {
  store : S;
  calls : list StoreCall;
  logs : list LogEntry;
  files : gmap string string;
}.
Arguments mkWorld {S}.
Arguments store {S}.
Arguments calls {S}.
Arguments logs {S}.
Arguments files {S}.

Definition log {S} (e : LogEntry) (w : World S) : World S :=
  mkWorld (store w) (calls w) (logs w ++ [e]) (files w).

Definition logAll {S} (es : list LogEntry) (w : World S) : World S :=
  mkWorld (store w) (calls w) (logs w ++ es) (files w).

Definition setFiles {S} (fs : gmap string string) (w : World S) : World S :=
  mkWorld (store w) (calls w) (logs w) fs.

(** A store operation run in the world: the call is recorded and the
    store's new state kept. *)
Definition onStore {S A} (c : StoreCall) (op : S -> A * S) (w : World S) : A * World S :=
  let '(r, s) := op (store w) in
  (r, mkWorld s (calls w ++ [c]) (logs w) (files w)).

(** ** The plugin manager *)

Definition pluginsPattern : string := "**/plugins/*/*.yaml".

(** What lines 143 to 198 of the loop body make of one archive entry,
    before the store is consulted. *)
Inductive Entry :=
| BadPattern (err : error)
| Skipped (warnings : list LogEntry)
| Descriptor (warnings : list LogEntry) (plugin : types.Plugin).

Definition warn (err : option error) (name : string) (msg : string) : LogEntry :=
  mkLog Warn err (Some name) msg.

Section Manager.

Context {S : Type} `{PluginStore S}.

(** [parse.ParseBytes] of the configuration format ([parse.ParseString] is
    the same parser on a string), and [filepath.Dir], [filepath.Join]. *)
Variable ParseBytes : string -> error + v1yaml.Config.
Variable filepath_Dir : string -> string.
Variable filepath_Join : string -> string -> string.

(** [GetLookupFn]: the closure it returns, run in a world. *)
Definition Lookup (name kind typ version : string) (w : World S)
  : (error + v1yaml.Config) * World S :=
  if negb (String.eqb kind "plugin") then (inl "only plugin kind supported", w)
  else if negb (String.eqb typ "step") then (inl "only step plugins supported", w)
  else
    let '(found, w) := onStore (CallFind name version) (Find name version) w in
    match found with
    | inl err => (inl (Errorf "could not lookup plugin" err), w)
    | inr plugin =>
        match ParseBytes (types.Spec plugin) with
        | inl err => (inl (Errorf "could not unmarshal plugin to v1yaml spec" err), w)
        | inr config => (inr config, w)
        end
    end.

(** The index of the catalog: [pluginMap[p.UID] = p] for every listed
    plugin, in order. *)
Definition indexPlugins (plugins : list types.Plugin) : gmap string types.Plugin :=
  foldl (fun pluginMap p => <[types.UID p := p]> pluginMap) ∅ plugins.

(** The logo of the directory of an entry, when it can be opened. *)
Definition readLogo (rc : zip.ReadCloser) (name : string) (plugin : types.Plugin)
  : list LogEntry * types.Plugin :=
  let dir := filepath_Dir name in
  let logoFile := filepath_Join dir "logo.svg" in
  match zip.rc_Open rc logoFile with
  | OpenFails _ => ([], plugin)
  | CopyFails err => ([warn (Some err) name "could not copy logo file"], plugin)
  | Contents lbuf =>
      ([], types.mkPlugin (types.UID plugin) (types.Description plugin)
             (types.Typ plugin) (types.Spec plugin) lbuf)
  end.

(** Lines 143 to 198: select the entry, read it, parse it and build the
    descriptor. *)
Definition readEntry (rc : zip.ReadCloser) (file : zip.File) : Entry :=
  match filepath.Match pluginsPattern (zip.Name file) with
  | filepath.ErrBadPattern => BadPattern (Errorf "could not glob pattern" "syntax error in pattern")
  | filepath.Matched false => Skipped []
  | filepath.Matched true =>
      match zip.Open file with
      | OpenFails err => Skipped [warn (Some err) (zip.Name file) "could not open file"]
      | CopyFails err => Skipped [warn (Some err) (zip.Name file) "could not read file contents"]
      | Contents buf =>
          match ParseBytes buf with
          | inl err =>
              Skipped [warn (Some err) (zip.Name file) "could not parse schema into valid config"]
          | inr config =>
              let build desc :=
                let plugin := types.mkPlugin (v1yaml.Name config) desc (v1yaml.Typ config) buf "" in
                let '(warnings, plugin) := readLogo rc (zip.Name file) plugin in
                Descriptor warnings plugin in
              match v1yaml.Spec config with
              | v1yaml.PluginStep desc => build desc
              | v1yaml.PluginStage desc => build desc
              | v1yaml.OtherSpec =>
                  Skipped [warn None (zip.Name file) "schema did not match a valid plugin schema"]
              end
          end
      end
  end.

(** Lines 200 to 226: skip, update or create, against the index. *)
Definition upsert (pluginMap : gmap string types.Plugin) (name : string)
    (plugin : types.Plugin) (w : World S) (cnt : nat) : World S * nat :=
  let unchanged :=
    match pluginMap !! types.UID plugin with
    | Some p => types.Matches p plugin
    | None => false
    end in
  if unchanged then (w, cnt)
  else
    match pluginMap !! types.UID plugin with
    | Some _ =>
        let '(err, w) := onStore (CallUpdate plugin) (Update plugin) w in
        match err with
        | Some err => (log (warn (Some err) name "could not update plugin") w, cnt)
        | None =>
            (log (mkLog Info None (Some name)
                    "detected changes: updated existing plugin entry") w, cnt)
        end
    | None =>
        let '(err, w) := onStore (CallCreate plugin) (Create plugin) w in
        match err with
        | Some err => (log (warn (Some err) name "could not create plugin in DB") w, cnt)
        | None => (w, cnt + 1)
        end
    end.

(** The loop over [rc.File]. *)
Fixpoint upsertAll (pluginMap : gmap string types.Plugin) (rc : zip.ReadCloser)
    (entries : list zip.File) (w : World S) (cnt : nat) : option error * World S * nat :=
  match entries with
  | [] => (None, w, cnt)
  | file :: entries =>
      match readEntry rc file with
      | BadPattern err => (Some err, w, cnt)
      | Skipped warnings => upsertAll pluginMap rc entries (logAll warnings w) cnt
      | Descriptor warnings plugin =>
          let '(w, cnt) := upsert pluginMap (zip.Name file) plugin (logAll warnings w) cnt in
          upsertAll pluginMap rc entries w cnt
      end
  end.

(** [traverseAndUpsertPlugins] traverses through the zip and upserts
    plugins into the database if they are not present.  Next to the error
    it returns, the model hands out the counter [cnt] that the function
    logs. *)
Definition traverseAndUpsertPlugins (rc : zip.ReadCloser) (w : World S)
  : option error * World S * nat :=
  let '(listed, w) := onStore CallListAll ListAll w in
  match listed with
  | inl err => (Some (Errorf "could not list plugins" err), w, 0)
  | inr plugins =>
      let pluginMap := indexPlugins plugins in
      let '(err, w, cnt) := upsertAll pluginMap rc (zip.rc_File rc) w 0 in
      match err with
      | Some err => (Some err, w, cnt)
      | None =>
          (None,
           log (mkLog Info None None ("added " +:+ pretty cnt +:+ " new entries to plugins")) w,
           cnt)
      end
  end.

End Manager.

(** ** Fetching the archive *)

Module http.

(** The response of [http.Get]: its status code, and what copying the
    body with [io.Copy] delivers: the bytes read, and the error that ended
    the copy, if any. *)
Record Response := mkResponse {
  StatusCode : nat;
  Body : string;
  BodyErr : option error;
}.

End http.

Section Populate.

Context {S : Type} `{PluginStore S}.

Variable ParseBytes : string -> error + v1yaml.Config.
Variable filepath_Dir : string -> string.
Variable filepath_Join : string -> string -> string.

(** The transport and the operating system: [http.Get], the name chosen by
    [os.CreateTemp] for the files at hand, whether [os.Create] fails on a
    path, and the decoding of the bytes of a file by [zip.OpenReader]. *)
Variable http_Get : string -> error + http.Response.
Variable os_CreateTemp : gmap string string -> error + string.
Variable os_Create : string -> option error.
Variable zip_Reader : string -> error + zip.ReadCloser.

(** [downloadZip] is a helper function that downloads a zip from a URL
    and writes it to a path in the local filesystem. *)
Definition downloadZip (url path : string) (w : World S) : option error * World S :=
  match http_Get url with
  | inl err => (Some (Errorf "could not get zip from url" err), w)
  | inr response =>
      match os_Create path with
      | Some err => (Some (Errorf "could not create output file" err), w)
      | None =>
          let w := setFiles (<[path := ""]> (files w)) w in
          let w := setFiles (<[path := http.Body response]> (files w)) w in
          match http.BodyErr response with
          | Some err =>
              (Some (Errorf "could not copy response body output to file" err), w)
          | None => (None, w)
          end
      end
  end.

(** Lines 88 to 101 of [Populate]: open the zip and upsert. *)
Definition openAndUpsert (path : string) (w : World S) : option error * World S :=
  let opened :=
    match files w !! path with
    | None => inl "no such file or directory"
    | Some bytes => zip_Reader bytes
    end in
  match opened with
  | inl err => (Some (Errorf "could not open zip for reading" err), w)
  | inr zipFile =>
      let '(err, w, _) :=
        traverseAndUpsertPlugins ParseBytes filepath_Dir filepath_Join zipFile w in
      match err with
      | Some err => (Some (Errorf "could not upsert plugins" err), w)
      | None => (None, w)
      end
  end.

(** [Populate] fetches plugins information from an external source or a
    local zip and populates in the DB.  [path] is
    [m.config.CI.PluginsZipPath]. *)
Definition Populate (path : string) (w : World S) : option error * World S :=
  if String.eqb path "" then (Some "plugins path not provided to read schemas from", w)
  else
    match files w !! path with
    | Some _ => openAndUpsert path w
    | None =>
        match os_CreateTemp (files w) with
        | inl err => (Some (Errorf "could not create temp file" err), w)
        | inr f =>
            let w := setFiles (<[f := ""]> (files w)) w in
            let '(err, w) :=
              match downloadZip path f w with
              | (Some err, w) => (Some (Errorf "could not download remote zip" err), w)
              | (None, w) => openAndUpsert f w
              end in
            (err, setFiles (delete f (files w)) w)
        end
    end.

End Populate.

(** ** A catalog as store

    Modelled from the spec: the implementation of [store.PluginStore] is
    outside the files at hand.  The catalog holds plugin descriptors
    addressed by identifier, the primary key; [ListAll] returns all of
    them; [Find] fails when the identifier is absent; [Create] fails if the
    identifier already exists; [Update] fails if the identifier is absent.
    The state maps an identifier to the rest of the descriptor. *)
Module Catalog.

Definition descriptor (uid : string) (content : string * string * string * string)
  : types.Plugin :=
  let '(typ, description, spec, logo) := content in
  types.mkPlugin uid description typ spec logo.

Definition listAll (c : gmap string (string * string * string * string))
  : (error + list types.Plugin) * gmap string (string * string * string * string) :=
  (inr (uncurry descriptor <$> map_to_list c), c).

Definition find (name version : string) (c : gmap string (string * string * string * string))
  : (error + types.Plugin) * gmap string (string * string * string * string) :=
  match c !! name with
  | Some content => (inr (descriptor name content), c)
  | None => (inl "NotFound", c)
  end.

Definition create (p : types.Plugin) (c : gmap string (string * string * string * string))
  : option error * gmap string (string * string * string * string) :=
  match c !! types.UID p with
  | Some _ => (Some "identifier already exists", c)
  | None => (None, <[types.UID p := types.contentIdentity p]> c)
  end.

Definition update (p : types.Plugin) (c : gmap string (string * string * string * string))
  : option error * gmap string (string * string * string * string) :=
  match c !! types.UID p with
  | Some _ => (None, <[types.UID p := types.contentIdentity p]> c)
  | None => (Some "identifier absent", c)
  end.

#[global] Instance store : PluginStore (gmap string (string * string * string * string)) :=
  {| ListAll := listAll; Find := find; Create := create; Update := update |}.

End Catalog.

(** The world of a pass that starts on catalog [c] with nothing recorded. *)
Definition initial (c : gmap string (string * string * string * string))
  : World (gmap string (string * string * string * string)) :=
  mkWorld c [] [] ∅.

(** The descriptors a pass builds from the entries of an archive, in
    traversal order. *)
Definition descriptorOf (e : Entry) : option types.Plugin :=
  match e with
  | Descriptor _ plugin => Some plugin
  | _ => None
  end.

Definition descriptors (ParseBytes : string -> error + v1yaml.Config)
    (filepath_Dir : string -> string) (filepath_Join : string -> string -> string)
    (rc : zip.ReadCloser) (entries : list zip.File) : list types.Plugin :=
  omap (fun file => descriptorOf (readEntry ParseBytes filepath_Dir filepath_Join rc file)) entries.

(** The store call that the index prescribes for a descriptor, if any. *)
Definition decision (pluginMap : gmap string types.Plugin) (plugin : types.Plugin)
  : option StoreCall :=
  match pluginMap !! types.UID plugin with
  | Some p => if types.Matches p plugin then None else Some (CallUpdate plugin)
  | None => Some (CallCreate plugin)
  end.

Abbreviation catalog := (gmap string (string * string * string * string)).
Abbreviation entryOf := (fun p : types.Plugin => (types.UID p, types.contentIdentity p)).

(** ** A concrete setting, used to run the definitions *)
Module Demo.

(** A toy manifest grammar: the first byte gives the variant, the name
    runs up to the first colon, the description is the rest. *)
Fixpoint untilColon (s : string) : string * string :=
  match s with
  | EmptyString => (EmptyString, EmptyString)
  | String c s' =>
      if Ascii.eqb c ":" then (EmptyString, s')
      else let '(name, rest) := untilColon s' in (String c name, rest)
  end.

Definition parse (buf : string) : error + v1yaml.Config :=
  match buf with
  | String "s" body =>
      let '(name, desc) := untilColon body in
      inr (v1yaml.mkConfig name "step" (v1yaml.PluginStep desc))
  | String "g" body =>
      let '(name, desc) := untilColon body in
      inr (v1yaml.mkConfig name "stage" (v1yaml.PluginStage desc))
  | String "o" body => inr (v1yaml.mkConfig body "other" v1yaml.OtherSpec)
  | _ => inl "yaml: unmarshal errors"
  end.

Definition dir (name : string) : string := name.
Definition join (dir file : string) : string := dir +:+ "/" +:+ file.

(** An archive without logos. *)
Definition archive (entries : list zip.File) : zip.ReadCloser :=
  zip.mkReadCloser entries (fun _ => OpenFails "file does not exist").

Definition docker1 : zip.File :=
  zip.mkFile "repo/plugins/docker/plugin.yaml" (Contents "sdocker:build images").
Definition docker2 : zip.File :=
  zip.mkFile "repo/plugins/docker-next/plugin.yaml" (Contents "sdocker:build and push").
Definition slack : zip.File :=
  zip.mkFile "repo/plugins/slack/plugin.yaml" (Contents "sslack:notify").

Definition pDocker1 : types.Plugin :=
  types.mkPlugin "docker" "build images" "step" "sdocker:build images" "".
Definition pDocker2 : types.Plugin :=
  types.mkPlugin "docker" "build and push" "step" "sdocker:build and push" "".
Definition pSlack : types.Plugin :=
  types.mkPlugin "slack" "notify" "step" "sslack:notify" "".

Abbreviation pass :=
  (traverseAndUpsertPlugins (S:=gmap string (string * string * string * string)) parse dir join).

Definition get404 (url : string) : error + http.Response :=
  inr (http.mkResponse 404 "PK: plugins" None).
Definition create (path : string) : option error := None.
Definition createTemp (fs : gmap string string) : error + string := inr "/tmp/plugins.zip123".
Definition reader (bytes : string) : error + zip.ReadCloser :=
  if String.eqb bytes "PK: plugins" then inr (archive [docker1])
  else inl "zip: not a valid zip file".

(** Catalogs that hold one descriptor. *)
Definition dockerCatalog : gmap string (string * string * string * string) :=
  {[ "docker" := types.contentIdentity pDocker1 ]}.
Definition slackCatalog : gmap string (string * string * string * string) :=
  {[ "slack" := types.contentIdentity pSlack ]}.
Definition dockerIndex : gmap string types.Plugin := {[ "docker" := pDocker1 ]}.

End Demo.

(** ** Vocabulary for the properties of the code around the claims *)

(** The names that the manager's pattern selects: one directory, then
    [plugins], then one directory, then a file that ends in [.yaml]. *)
Definition selected (name : string) : Prop :=
  exists root dir base,
    filepath.noSeparator root /\ filepath.noSeparator dir /\ filepath.noSeparator base /\
    name = root +:+ "/plugins/" +:+ dir +:+ "/" +:+ base +:+ ".yaml".

(** The calls that write to the store, and those that create. *)
Definition isWrite (c : StoreCall) : Prop :=
  match c with
  | CallCreate _ | CallUpdate _ => True
  | _ => False
  end.

Definition isCreate (c : StoreCall) : bool :=
  match c with
  | CallCreate _ => true
  | _ => false
  end.

(** The last entry that a pass logs when it succeeds. *)
Definition addedEntries (cnt : nat) : LogEntry :=
  mkLog Info None None ("added " +:+ pretty cnt +:+ " new entries to plugins").

(** The catalog holds, under identifier [k], the content of one of the
    descriptors [ds] with that identifier. *)
Definition filedFrom (ds : list types.Plugin) (k : string)
    (c : gmap string (string * string * string * string)) : Prop :=
  exists q, q ∈ ds /\ types.UID q = k /\ c !! k = Some (types.contentIdentity q).

(** A store that is down: every operation fails and nothing changes. *)
Definition downStore : PluginStore unit :=
  {| ListAll := fun s => (inl "connection refused", s);
     Find := fun _ _ s => (inl "connection refused", s);
     Create := fun _ s => (Some "connection refused", s);
     Update := fun _ s => (Some "connection refused", s) |}.

(** An archive with a logo next to one manifest and an unreadable one next
    to another, with the directory of a name taken up to its last
    separator. *)
Module Fixtures.

Fixpoint dirname (s : string) : string :=
  match s with
  | EmptyString => EmptyString
  | String c s' =>
      if filepath.containsSeparator s' then String c (dirname s') else EmptyString
  end.

Definition openLogo (name : string) : Stream :=
  if String.eqb name "repo/plugins/docker/logo.svg" then Contents "<svg>whale</svg>"
  else if String.eqb name "repo/plugins/slack/logo.svg" then CopyFails "unexpected EOF"
  else OpenFails "file does not exist".

Definition withLogos : zip.ReadCloser :=
  zip.mkReadCloser [Demo.docker1; Demo.slack] openLogo.

Definition dockerConfig : v1yaml.Config :=
  v1yaml.mkConfig "docker" "step" (v1yaml.PluginStep "build images").

Definition dockerWithLogo : types.Plugin :=
  types.mkPlugin "docker" "build images" "step" "sdocker:build images" "<svg>whale</svg>".

(** A world whose local files hold an archive. *)
Definition localWorld : World (gmap string (string * string * string * string)) :=
  mkWorld ∅ [] [] {[ "/data/plugins.zip" := "PK: plugins" ]}.

(** Another transport: every request fails. *)
Definition getFails (url : string) : error + http.Response := inl "no route to host".
Definition createTempFails (fs : gmap string string) : error + string := inl "disk full".
Definition createFails (path : string) : option error := Some "permission denied".

End Fixtures.

(** ** Properties of [filepath.Match] *)

Section MatchFacts.
Import filepath.

Lemma skipStars_length pattern :
  String.length (snd (skipStars pattern)) <= String.length pattern.
Proof.
  induction pattern as [|c pattern IH]; simpl; [lia|].
  destruct c as [[] [] [] [] [] [] [] []]; simpl; lia.
Qed.

Lemma skipStars_star pattern :
  fst (skipStars pattern) = true ->
  String.length (snd (skipStars pattern)) < String.length pattern.
Proof.
  destruct pattern as [|c pattern]; simpl; [discriminate|].
  pose proof (skipStars_length pattern).
  destruct c as [[] [] [] [] [] [] [] []]; simpl; try discriminate; lia.
Qed.

Lemma scanLiteral_length pattern :
  String.length (snd (scanLiteral pattern)) <= String.length pattern.
Proof.
  induction pattern as [|c pattern IH]; simpl; [lia|].
  destruct (Ascii.eqb c "*"); simpl; [lia|].
  destruct (scanLiteral pattern); simpl in *; lia.
Qed.

Lemma scanLiteral_chunk pattern :
  pattern <> EmptyString -> fst (scanLiteral pattern) = EmptyString ->
  fst (skipStars pattern) = true.
Proof.
  destruct pattern as [|c pattern]; [done|]. intros _. simpl.
  destruct (Ascii.eqb_spec c "*") as [->|Hc]; [done|].
  destruct (scanLiteral pattern); simpl. discriminate.
Qed.

Lemma scanLiteral_progress pattern :
  fst (scanLiteral pattern) <> EmptyString ->
  String.length (snd (scanLiteral pattern)) < String.length pattern.
Proof.
  destruct pattern as [|c pattern]; simpl; [done|].
  pose proof (scanLiteral_length pattern).
  destruct (Ascii.eqb c "*"); simpl; [done|].
  destruct (scanLiteral pattern); simpl in *; lia.
Qed.

(** A round of the loop shortens a non-empty pattern. *)
Lemma scanChunk_progress pattern :
  pattern <> EmptyString ->
  String.length (snd (scanChunk pattern)) < String.length pattern.
Proof.
  intros Hne. unfold scanChunk.
  pose proof (skipStars_length pattern) as Hle.
  pose proof (skipStars_star pattern) as Hstar.
  destruct (skipStars pattern) as [star pattern'] eqn:Hs; simpl in *.
  pose proof (scanLiteral_length pattern') as Hle'.
  pose proof (scanLiteral_progress pattern') as Hlt.
  pose proof (scanLiteral_chunk pattern') as Hch.
  destruct (scanLiteral pattern') as [chunk rest] eqn:Hl; simpl in *.
  destruct star; [specialize (Hstar eq_refl); lia|].
  assert (pattern' = pattern) as ->.
  { destruct pattern as [|c p]; simpl in Hs; [congruence|].
    destruct c as [[] [] [] [] [] [] [] []]; simpl in Hs; congruence. }
  destruct chunk; [|apply Hlt; done].
  specialize (Hch Hne eq_refl). rewrite Hs in Hch. discriminate.
Qed.

(** The bound on the rounds is enough, and the fragment has no malformed
    pattern. *)
Lemma matchLoop_rounds rounds pattern name :
  String.length pattern <= rounds ->
  exists matched, matchLoop rounds pattern name = Some (Matched matched).
Proof.
  revert pattern name. induction rounds as [|rounds IH]; intros pattern name Hlen.
  - destruct pattern; simpl in *; [eauto|lia].
  - destruct pattern as [|c pattern]; [simpl; eauto|].
    pose proof (scanChunk_progress (String c pattern)) as Hp.
    cbn [matchLoop].
    destruct (scanChunk (String c pattern)) as [[star chunk] rest]; simpl in Hp.
    assert (String.length rest <= rounds) as Hrest by (specialize (Hp ltac:(done)); simpl in *; lia).
    destruct (star && String.eqb chunk EmptyString); [eauto|].
    assert (exists matched,
      (if star
       then match skipAndMatch chunk (String.eqb rest EmptyString) name with
            | Some t => matchLoop rounds rest t
            | None => Some (Matched false)
            end
       else Some (Matched false)) = Some (Matched matched)) as Hskip.
    { destruct star; [|eauto]. destruct (skipAndMatch _ _ _); eauto. }
    destruct (matchChunk chunk name) as [t|]; [|done].
    destruct (_ || _); eauto.
Qed.

Lemma Match_total pattern name : exists matched, Match pattern name = Matched matched.
Proof.
  unfold Match.
  destruct (matchLoop_rounds (String.length pattern) pattern name) as [m ->]; eauto.
Qed.

Lemma noSeparator_cons c s :
  noSeparator (String c s) <-> c <> Separator /\ noSeparator s.
Proof.
  unfold noSeparator. simpl. destruct (Ascii.eqb_spec c Separator); intuition congruence.
Qed.

Lemma append_empty s : EmptyString +:+ s = s.
Proof. reflexivity. Qed.

Lemma append_cons c s t : String c s +:+ t = String c (s +:+ t).
Proof. reflexivity. Qed.

Lemma append_empty_r s : s +:+ EmptyString = s.
Proof. induction s as [|c s IH]; [done|]. by rewrite append_cons, IH. Qed.

Ltac unappend := rewrite ?append_empty, ?append_cons.

Lemma matchChunk_app chunk t : matchChunk chunk (chunk +:+ t) = Some t.
Proof.
  induction chunk as [|c chunk IH]; unappend; simpl; [done|]. by rewrite Ascii.eqb_refl.
Qed.

Lemma matchChunk_inv chunk s t : matchChunk chunk s = Some t -> s = chunk +:+ t.
Proof.
  revert s. induction chunk as [|c chunk IH]; intros s; unappend; simpl; [congruence|].
  destruct s as [|d s]; [done|].
  destruct (Ascii.eqb_spec c d) as [->|]; [|done].
  intros Hm. by rewrite (IH _ Hm).
Qed.

Lemma matchLoop_seek rounds pattern chunk rest name :
  scanChunk pattern = (true, chunk, rest) -> chunk <> EmptyString ->
  matchLoop (S rounds) pattern name =
    match seek chunk (String.eqb rest EmptyString) name with
    | Some t => matchLoop rounds rest t
    | None => Some (Matched false)
    end.
Proof.
  intros Hscan Hchunk. destruct pattern as [|c pattern]; [done|].
  cbn [matchLoop]. rewrite Hscan. destruct chunk as [|d chunk]; [done|].
  cbn [andb String.eqb]. unfold seek.
  destruct (matchChunk (String d chunk) name) as [t|]; [|done].
  by destruct (String.eqb t EmptyString), (String.eqb rest EmptyString).
Qed.

Lemma skipAndMatch_cons chunk c name :
  c <> Separator -> skipAndMatch chunk false (String c name) = seek chunk false name.
Proof.
  intros Hc. simpl. destruct (Ascii.eqb_spec c Separator); [done|].
  unfold seek. destruct (matchChunk chunk name); [|done].
  by rewrite orb_true_r.
Qed.

Lemma seek_inv chunk name t :
  seek chunk false name = Some t ->
  exists a, noSeparator a /\ name = a +:+ chunk +:+ t.
Proof.
  revert t. induction name as [|c name IH]; intros t; unfold seek.
  - destruct (matchChunk chunk EmptyString) as [t'|] eqn:Hm; [|by simpl].
    rewrite orb_true_r. intros [= ->]. exists EmptyString. split; [done|].
    rewrite append_empty. by apply matchChunk_inv.
  - destruct (matchChunk chunk (String c name)) as [t'|] eqn:Hm.
    + rewrite orb_true_r. intros [= ->]. exists EmptyString. split; [done|].
      rewrite append_empty. by apply matchChunk_inv.
    + simpl. destruct (Ascii.eqb_spec c Separator) as [|Hc]; [done|].
      intros Hs. destruct (IH t) as (a & Ha & ->).
      { unfold seek. destruct (matchChunk chunk name); [|done]. by rewrite orb_true_r. }
      exists (String c a). split; [by apply noSeparator_cons|done].
Qed.

Lemma seek_app chunk a t :
  noSeparator a ->
  seek (String Separator chunk) false (a +:+ String Separator chunk +:+ t) = Some t.
Proof.
  induction a as [|c a IH]; intros Ha.
  - unfold seek. rewrite append_empty.
    by rewrite matchChunk_app, orb_true_r.
  - apply noSeparator_cons in Ha as [Hc Ha].
    unfold seek. rewrite (append_cons c).
    cbn [matchChunk]. destruct (Ascii.eqb_spec Separator c) as [|_]; [done|].
    rewrite skipAndMatch_cons by done. by apply IH.
Qed.

Lemma skipAndMatch_last_inv chunk name t :
  skipAndMatch chunk true name = Some t ->
  t = EmptyString /\ exists a, noSeparator a /\ name = a +:+ chunk.
Proof.
  revert t. induction name as [|c name IH]; intros t; simpl; [done|].
  destruct (Ascii.eqb_spec c Separator) as [|Hc]; [done|].
  assert (skipAndMatch chunk true name = Some t ->
          t = EmptyString /\ exists a, noSeparator a /\ String c name = a +:+ chunk) as Hrec.
  { intros Hs. destruct (IH _ Hs) as (-> & a & Ha & ->). split; [done|].
    exists (String c a). split; [by apply noSeparator_cons|done]. }
  destruct (matchChunk chunk name) as [t'|] eqn:Hm; [|done].
  destruct (String.eqb_spec t' EmptyString) as [->|_]; simpl; [|done].
  intros [= <-]. split; [done|]. apply matchChunk_inv in Hm as ->.
  exists (String c EmptyString). split; [by apply noSeparator_cons|].
  by rewrite append_cons, append_empty, append_empty_r.
Qed.

Lemma seek_last_inv chunk name t :
  seek chunk true name = Some t ->
  t = EmptyString /\ exists a, noSeparator a /\ name = a +:+ chunk.
Proof.
  unfold seek. destruct (matchChunk chunk name) as [t'|] eqn:Hm;
    [|apply skipAndMatch_last_inv].
  destruct (String.eqb_spec t' EmptyString) as [->|_]; simpl;
    [|apply skipAndMatch_last_inv].
  intros [= <-]. split; [done|]. exists EmptyString. split; [done|].
  apply matchChunk_inv in Hm as ->. by rewrite append_empty, append_empty_r.
Qed.

Lemma matchChunk_self chunk : matchChunk chunk chunk = Some EmptyString.
Proof. induction chunk as [|c chunk IH]; simpl; [done|]. by rewrite Ascii.eqb_refl. Qed.

Lemma skipAndMatch_last_app chunk a c :
  noSeparator (String c a) ->
  skipAndMatch chunk true (String c a +:+ chunk) = Some EmptyString.
Proof.
  revert c. induction a as [|d a IH]; intros c [Hc Ha]%noSeparator_cons;
    rewrite (append_cons c); simpl;
    destruct (Ascii.eqb_spec c Separator) as [|_]; try done.
  - by rewrite append_empty, matchChunk_self.
  - specialize (IH d Ha).
    destruct (matchChunk chunk (String d a +:+ chunk)) as [t|]; [|done].
    by destruct (String.eqb_spec t EmptyString) as [->|_].
Qed.

Lemma seek_last_app chunk a :
  noSeparator a -> seek chunk true (a +:+ chunk) = Some EmptyString.
Proof.
  intros Ha. unfold seek. destruct a as [|c a].
  - by rewrite append_empty, matchChunk_self.
  - rewrite skipAndMatch_last_app by done.
    destruct (matchChunk chunk (String c a +:+ chunk)) as [t|]; [|done].
    by destruct (String.eqb_spec t EmptyString) as [->|_].
Qed.

(** What the manager's pattern selects: exactly the names made of one
    directory, then [plugins], then one directory, then a file that ends
    in [.yaml]; none of the three starred parts crosses a separator. *)
Lemma Match_pluginsPattern name :
  Match pluginsPattern name = Matched true <->
  exists root dir file,
    noSeparator root /\ noSeparator dir /\ noSeparator file /\
    name = root +:+ "/plugins/" +:+ dir +:+ "/" +:+ file +:+ ".yaml".
Proof.
  unfold Match, pluginsPattern. cbn [String.length].
  rewrite (matchLoop_seek _ _ "/plugins/" "*/*.yaml") by done.
  cbn [String.eqb Ascii.eqb]. split.
  - destruct (seek "/plugins/" false name) as [t1|] eqn:H1; [|done].
    rewrite (matchLoop_seek _ _ "/" "*.yaml") by done. cbn [String.eqb Ascii.eqb].
    destruct (seek "/" false t1) as [t2|] eqn:H2; [|done].
    rewrite (matchLoop_seek _ _ ".yaml" "") by done. cbn [String.eqb].
    destruct (seek ".yaml" true t2) as [t3|] eqn:H3; [|done]. intros _.
    apply seek_inv in H1 as (root & Hroot & ->).
    apply seek_inv in H2 as (dir & Hdir & ->).
    apply seek_last_inv in H3 as (-> & file & Hfile & ->).
    by exists root, dir, file.
  - intros (root & dir & file & Hroot & Hdir & Hfile & ->).
    rewrite (seek_app "plugins/" root) by done.
    rewrite (matchLoop_seek _ _ "/" "*.yaml") by done. cbn [String.eqb Ascii.eqb].
    rewrite (seek_app "" dir) by done.
    rewrite (matchLoop_seek _ _ ".yaml" "") by done. cbn [String.eqb].
    by rewrite seek_last_app.
Qed.

End MatchFacts.

(** ** Facts about the manager, for any store *)

Section ManagerFacts.

Context {S : Type} `{PluginStore S}.
Variable ParseBytes : string -> error + v1yaml.Config.
Variable filepath_Dir : string -> string.
Variable filepath_Join : string -> string -> string.

Abbreviation readEntry_ := (readEntry ParseBytes filepath_Dir filepath_Join).
Abbreviation upsertAll_ := (upsertAll ParseBytes filepath_Dir filepath_Join).
Abbreviation descriptors_ := (descriptors ParseBytes filepath_Dir filepath_Join).
Abbreviation traverseAndUpsertPlugins_ :=
  (traverseAndUpsertPlugins ParseBytes filepath_Dir filepath_Join).

Lemma Matches_contentIdentity p q :
  types.Matches p q = true <-> types.contentIdentity p = types.contentIdentity q.
Proof.
  unfold types.Matches, types.contentIdentity.
  rewrite !andb_true_iff, !String.eqb_eq. split.
  - intros [[[-> ->] ->] ->]. done.
  - intros [= -> -> -> ->]. done.
Qed.

Lemma readEntry_no_BadPattern rc file err : readEntry_ rc file <> BadPattern err.
Proof.
  unfold readEntry.
  destruct (Match_total pluginsPattern (zip.Name file)) as [matched ->].
  destruct matched; [|done].
  destruct (zip.Open file); try done.
  destruct (ParseBytes data) as [|config]; [done|].
  destruct (v1yaml.Spec config); try done; by destruct (readLogo _ _ _ _ _).
Qed.

(** What one descriptor adds to the record of calls. *)
Lemma upsert_calls pluginMap name plugin (w : World S) cnt :
  calls (upsert pluginMap name plugin w cnt).1 =
    calls w ++ option_list (decision pluginMap plugin).
Proof.
  unfold upsert, decision, onStore.
  destruct (pluginMap !! types.UID plugin) as [p|].
  - destruct (types.Matches p plugin); simpl; [by rewrite app_nil_r|].
    destruct (Update plugin (store w)) as [[err|] s]; done.
  - destruct (Create plugin (store w)) as [[err|] s]; done.
Qed.

Lemma upsert_files pluginMap name plugin (w : World S) cnt :
  files (upsert pluginMap name plugin w cnt).1 = files w.
Proof.
  unfold upsert, onStore.
  destruct (pluginMap !! types.UID plugin) as [p|].
  - destruct (types.Matches p plugin); simpl; [done|].
    destruct (Update plugin (store w)) as [[err|] s]; done.
  - destruct (Create plugin (store w)) as [[err|] s]; done.
Qed.

(** The loop never fails, and the calls it makes are those the index
    prescribes for the descriptors_, in traversal order. *)
Lemma upsertAll_calls pluginMap rc entries (w : World S) cnt :
  exists w' cnt',
    upsertAll_ pluginMap rc entries w cnt = (None, w', cnt') /\
    calls w' = calls w ++ omap (decision pluginMap) (descriptors_ rc entries).
Proof.
  revert w cnt. induction entries as [|file entries IH]; intros w cnt; simpl.
  - eexists _, _. split; [done|]. by rewrite app_nil_r.
  - unfold descriptors in *. simpl.
    pose proof (readEntry_no_BadPattern rc file) as Hbad.
    destruct (readEntry_ rc file) as [err|warnings|warnings plugin]; simpl.
    + by destruct (Hbad err).
    + destruct (IH (logAll warnings w) cnt) as (w' & cnt' & -> & Hcalls). eauto.
    + pose proof (upsert_calls pluginMap (zip.Name file) plugin (logAll warnings w) cnt) as Hc.
      destruct (upsert pluginMap (zip.Name file) plugin (logAll warnings w) cnt) as [w1 cnt1].
      destruct (IH w1 cnt1) as (w' & cnt' & -> & Hcalls).
      eexists _, _. split; [done|]. simpl in Hc. rewrite Hcalls, Hc.
      destruct (decision pluginMap plugin); simpl; by rewrite <- ?app_assoc.
Qed.

End ManagerFacts.

(** ** The claims that hold for any store *)

Section Claims.

Context {S : Type} `{PluginStore S}.
Variable ParseBytes : string -> error + v1yaml.Config.
Variable filepath_Dir : string -> string.
Variable filepath_Join : string -> string -> string.

Abbreviation readEntry' := (readEntry ParseBytes filepath_Dir filepath_Join).
Abbreviation upsertAll' := (upsertAll ParseBytes filepath_Dir filepath_Join).
Abbreviation descriptors' := (descriptors ParseBytes filepath_Dir filepath_Join).
Abbreviation traverse' := (traverseAndUpsertPlugins ParseBytes filepath_Dir filepath_Join).
Abbreviation Lookup' := (Lookup ParseBytes).

(** C1, at the failing inputs.  The claim wants every entry of the form
    plugins/<dir>/<file>.yaml selected at any depth.  The manifest
    [plugins/docker/plugin.yaml] at the root of the archive is not selected,
    nor is one that lies two directories deep: whatever their contents, the
    loop body skips both without reading them, and a pass over the archive
    of the spec's scenario calls [ListAll] and nothing else. *)
Theorem root_and_nested_manifests_not_selected
    (rc : zip.ReadCloser) (content broken : Stream) (open : string -> Stream) (w : World S) :
  readEntry' rc (zip.mkFile "plugins/docker/plugin.yaml" content) = Skipped []
  /\ readEntry' rc (zip.mkFile "bundle/v2/plugins/docker/plugin.yaml" content) = Skipped []
  /\ let '(_, w', cnt) :=
       traverse' (zip.mkReadCloser [zip.mkFile "plugins/docker/plugin.yaml" content;
                                    zip.mkFile "plugins/broken/plugin.yaml" broken] open) w in
     calls w' = calls w ++ [CallListAll] /\ store w' = (ListAll (store w)).2 /\ cnt = 0.
Proof.
  split; [done|]. split; [done|].
  unfold traverseAndUpsertPlugins, onStore.
  destruct (ListAll (store w)) as [[err|plugins] s]; simpl; done.
Qed.

(** C4.  A descriptor whose identifier is in the index and whose content
    identity (type, description, raw specification text, logo) equals the
    indexed descriptor's is skipped: the world after it is the world
    before it, so no call was made and the store is unchanged, and the
    counter keeps its value. *)
Theorem upsert_unchanged_makes_no_call
    (pluginMap : gmap string types.Plugin) (name : string) (plugin p : types.Plugin)
    (w : World S) (cnt : nat) :
  pluginMap !! types.UID plugin = Some p ->
  types.contentIdentity p = types.contentIdentity plugin ->
  upsert pluginMap name plugin w cnt = (w, cnt).
Proof.
  intros Hp Hid. unfold upsert. rewrite Hp.
  apply Matches_contentIdentity in Hid. by rewrite Hid.
Qed.

(** C5, amended.  For a descriptor whose identifier is not in the index
    the store's Create is called exactly once, and the counter goes up by
    one when that call succeeds and keeps its value when it fails.  For a
    descriptor whose identifier is in the index the counter keeps its
    value. *)
Theorem upsert_counts_successful_creates
    (pluginMap : gmap string types.Plugin) (name : string) (plugin : types.Plugin)
    (w : World S) (cnt : nat) :
  (pluginMap !! types.UID plugin = None ->
     let '(w', cnt') := upsert pluginMap name plugin w cnt in
     calls w' = calls w ++ [CallCreate plugin]
     /\ store w' = (Create plugin (store w)).2
     /\ cnt' = match (Create plugin (store w)).1 with
               | None => cnt + 1
               | Some _ => cnt
               end)
  /\ (is_Some (pluginMap !! types.UID plugin) ->
      (upsert pluginMap name plugin w cnt).2 = cnt).
Proof.
  unfold upsert, onStore. split.
  - intros ->. by destruct (Create plugin (store w)) as [[err|] s].
  - intros [p ->]. destruct (types.Matches p plugin); [done|].
    by destruct (Update plugin (store w)) as [[err|] s].
Qed.

(** C6.  For a descriptor whose identifier is in the index with another
    content identity the store's Update is called exactly once and the
    counter keeps its value; whether or not that call fails, the loop goes
    on with the remaining entries. *)
Theorem upsert_changed_updates_once
    (pluginMap : gmap string types.Plugin) (rc : zip.ReadCloser) (file : zip.File)
    (entries : list zip.File) (warnings : list LogEntry) (plugin p : types.Plugin)
    (w : World S) (cnt : nat) :
  readEntry' rc file = Descriptor warnings plugin ->
  pluginMap !! types.UID plugin = Some p ->
  types.contentIdentity p <> types.contentIdentity plugin ->
  exists w',
    upsert pluginMap (zip.Name file) plugin (logAll warnings w) cnt = (w', cnt)
    /\ calls w' = calls w ++ [CallUpdate plugin]
    /\ store w' = (Update plugin (store w)).2
    /\ upsertAll' pluginMap rc (file :: entries) w cnt = upsertAll' pluginMap rc entries w' cnt.
Proof.
  intros Hread Hp Hid. simpl. rewrite Hread.
  unfold upsert, onStore. rewrite Hp.
  destruct (types.Matches p plugin) eqn:Hm.
  { by apply Matches_contentIdentity in Hm. }
  simpl. destruct (Update plugin (store w)) as [[err|] s]; eauto.
Qed.

(** C8.  A query whose kind is not "plugin" or whose type is not "step"
    gets an error and leaves the world as it was: no call reaches the
    store.  A query with kind "plugin" and type "step" calls Find, once. *)
Theorem Lookup_reaches_store_only_for_step_plugins
    (name kind typ version : string) (w : World S) :
  (kind <> "plugin" \/ typ <> "step" ->
     exists err, Lookup' name kind typ version w = (inl err, w))
  /\ (kind = "plugin" -> typ = "step" ->
      calls (Lookup' name kind typ version w).2 = calls w ++ [CallFind name version]).
Proof.
  unfold Lookup. split.
  - intros Hq. destruct (String.eqb_spec kind "plugin") as [->|]; simpl; [|eauto].
    destruct (String.eqb_spec typ "step") as [->|]; simpl; [|eauto].
    by destruct Hq.
  - intros -> ->. simpl. unfold onStore.
    destruct (Find name version (store w)) as [[err|plugin] s]; [done|].
    by destruct (ParseBytes (types.Spec plugin)).
Qed.


End Claims.

(** ** Facts about passes over the catalog store *)


Section CatalogFacts.

Variable ParseBytes : string -> error + v1yaml.Config.
Variable filepath_Dir : string -> string.
Variable filepath_Join : string -> string -> string.

Abbreviation upsertAllC := (upsertAll (S:=catalog) ParseBytes filepath_Dir filepath_Join).
Abbreviation descriptorsC := (descriptors ParseBytes filepath_Dir filepath_Join).

Lemma contentIdentity_descriptor k v : types.contentIdentity (Catalog.descriptor k v) = v.
Proof. by destruct v as [[[typ description] spec] logo]. Qed.

Lemma UID_descriptor k v : types.UID (Catalog.descriptor k v) = k.
Proof. by destruct v as [[[typ description] spec] logo]. Qed.

Lemma indexPlugins_fold (l : list (string * (string * string * string * string)))
    (m : gmap string types.Plugin) k :
  NoDup l.*1 ->
  foldl (fun pluginMap p => <[types.UID p := p]> pluginMap) m
    (uncurry Catalog.descriptor <$> l) !! k =
    match (list_to_map l : catalog) !! k with
    | Some v => Some (Catalog.descriptor k v)
    | None => m !! k
    end.
Proof.
  revert m. induction l as [|[k1 v1] l IH]; intros m Hnd; simpl.
  - by rewrite lookup_empty.
  - apply NoDup_cons in Hnd as [Hk1 Hnd]. rewrite IH by done.
    rewrite UID_descriptor. destruct (decide (k1 = k)) as [->|Hne].
    + rewrite lookup_insert_eq.
      rewrite (not_elem_of_list_to_map_1 l k) by done. by rewrite lookup_insert_eq.
    + rewrite !lookup_insert_ne by done. done.
Qed.

(** The index of a catalog maps every identifier to its descriptor. *)
Lemma indexPlugins_listAll (c : catalog) plugins k :
  (Catalog.listAll c).1 = inr plugins ->
  indexPlugins plugins !! k = Catalog.descriptor k <$> c !! k.
Proof.
  intros [= <-]. unfold indexPlugins.
  rewrite indexPlugins_fold by apply NoDup_fst_map_to_list.
  rewrite list_to_map_to_list, lookup_empty. by destruct (c !! k).
Qed.

(** A descriptor only ever touches the catalog under its own
    identifier. *)
Lemma upsert_frame pluginMap name plugin (w : World catalog) cnt k :
  k <> types.UID plugin ->
  store (upsert pluginMap name plugin w cnt).1 !! k = store w !! k.
Proof.
  intros Hk. unfold upsert, onStore; simpl. unfold Catalog.update, Catalog.create.
  destruct (pluginMap !! types.UID plugin) as [p|].
  - destruct (types.Matches p plugin); [done|].
    destruct (store w !! types.UID plugin); simpl; [|done].
    by rewrite lookup_insert_ne.
  - destruct (store w !! types.UID plugin); simpl; [done|].
    by rewrite lookup_insert_ne.
Qed.

Lemma descriptors_cons rc file entries :
  descriptorsC rc (file :: entries) =
    match descriptorOf (readEntry ParseBytes filepath_Dir filepath_Join rc file) with
    | Some plugin => plugin :: descriptorsC rc entries
    | None => descriptorsC rc entries
    end.
Proof. reflexivity. Qed.

Lemma upsertAll_cons pluginMap rc file entries (w : World catalog) cnt :
  upsertAllC pluginMap rc (file :: entries) w cnt =
    match readEntry ParseBytes filepath_Dir filepath_Join rc file with
    | BadPattern err => (Some err, w, cnt)
    | Skipped warnings => upsertAllC pluginMap rc entries (logAll warnings w) cnt
    | Descriptor warnings plugin =>
        let '(w, cnt) := upsert pluginMap (zip.Name file) plugin (logAll warnings w) cnt in
        upsertAllC pluginMap rc entries w cnt
    end.
Proof. reflexivity. Qed.

Lemma upsertAll_frame pluginMap rc entries (w : World catalog) cnt k :
  k ∉ types.UID <$> descriptorsC rc entries ->
  store (upsertAllC pluginMap rc entries w cnt).1.2 !! k = store w !! k.
Proof.
  revert w cnt. induction entries as [|file entries IH]; intros w cnt Hk; [done|].
  rewrite descriptors_cons in Hk. rewrite upsertAll_cons.
  destruct (readEntry _ _ _ rc file) as [err|warnings|warnings plugin];
    cbn [descriptorOf] in Hk.
  - done.
  - by rewrite IH.
  - rewrite fmap_cons in Hk. apply not_elem_of_cons in Hk as [Hne Hk].
    pose proof (upsert_frame pluginMap (zip.Name file) plugin (logAll warnings w) cnt k Hne) as Hf.
    destruct (upsert pluginMap (zip.Name file) plugin (logAll warnings w) cnt) as [w1 cnt1].
    by rewrite IH.
Qed.

(** With the index of catalog [c0], and a store that still agrees with
    [c0] under the identifier of the descriptor, every branch leaves the
    descriptor's content under its identifier; the counter goes up for an
    identifier new to [c0]. *)
Lemma upsert_catalog (c0 : catalog) pluginMap name plugin (w : World catalog) cnt :
  (forall k, pluginMap !! k = Catalog.descriptor k <$> c0 !! k) ->
  store w !! types.UID plugin = c0 !! types.UID plugin ->
  let '(w', cnt') := upsert pluginMap name plugin w cnt in
  store w' = <[types.UID plugin := types.contentIdentity plugin]> (store w)
  /\ cnt' = cnt + match c0 !! types.UID plugin with Some _ => 0 | None => 1 end.
Proof.
  intros Hidx Hagree. unfold upsert, onStore; simpl.
  unfold Catalog.update, Catalog.create. rewrite Hidx, Hagree.
  destruct (c0 !! types.UID plugin) as [v|] eqn:Hc0; simpl.
  - destruct (types.Matches (Catalog.descriptor (types.UID plugin) v) plugin) eqn:Hm; simpl.
    + apply Matches_contentIdentity in Hm. rewrite contentIdentity_descriptor in Hm.
      subst v. rewrite insert_id by done. split; [done|lia].
    + split; [done|lia].
  - done.
Qed.

(** The loop over entries whose descriptors have pairwise distinct
    identifiers files every descriptor under its identifier. *)
Lemma upsertAll_catalog (c0 : catalog) pluginMap rc entries (w : World catalog) cnt :
  (forall k, pluginMap !! k = Catalog.descriptor k <$> c0 !! k) ->
  NoDup (types.UID <$> descriptorsC rc entries) ->
  (forall p, p ∈ descriptorsC rc entries -> store w !! types.UID p = c0 !! types.UID p) ->
  let '(_, w', cnt') := upsertAllC pluginMap rc entries w cnt in
  store w' = list_to_map (entryOf <$> descriptorsC rc entries) ∪ store w
  /\ cnt' = cnt + length (filter (fun p => c0 !! types.UID p = None) (descriptorsC rc entries)).
Proof.
  intros Hidx. revert w cnt.
  induction entries as [|file entries IH]; intros w cnt Hnd Hagree.
  { split; [|cbn; lia]. change (store w = list_to_map [] ∪ store w).
    by rewrite list_to_map_nil, (left_id_L ∅ (∪)). }
  rewrite upsertAll_cons. rewrite descriptors_cons in Hnd, Hagree |- *.
  pose proof (readEntry_no_BadPattern ParseBytes filepath_Dir filepath_Join rc file) as Hbad.
  destruct (readEntry _ _ _ rc file) as [err|warnings|warnings plugin];
    cbn [descriptorOf] in Hnd, Hagree |- *.
  - by destruct (Hbad err).
  - exact (IH (logAll warnings w) cnt Hnd Hagree).
  - rewrite fmap_cons in Hnd. apply NoDup_cons in Hnd as [Hfresh Hnd].
    pose proof (upsert_catalog c0 pluginMap (zip.Name file) plugin (logAll warnings w) cnt
                  Hidx (Hagree plugin ltac:(left))) as Hstep.
    destruct (upsert pluginMap (zip.Name file) plugin (logAll warnings w) cnt) as [w1 cnt1].
    cbn [store logAll] in Hstep. destruct Hstep as [Hw1 Hcnt1].
    specialize (IH w1 cnt1 Hnd).
    destruct (upsertAllC pluginMap rc entries w1 cnt1) as [[err w'] cnt'].
    destruct IH as [Hw' Hcnt'].
    { intros p Hp. rewrite Hw1, lookup_insert_ne.
      - apply Hagree. by right.
      - intros Heq. apply Hfresh. rewrite Heq. by apply list_elem_of_fmap_2. }
    split.
    + rewrite Hw', Hw1, fmap_cons, list_to_map_cons.
      rewrite <- insert_union_r, <- insert_union_l; [done|].
      apply not_elem_of_list_to_map_1. by rewrite <- list_fmap_compose.
    + rewrite Hcnt', Hcnt1, filter_cons.
      destruct (decide (c0 !! types.UID plugin = None)) as [->|Hsome]; cbn [length]; [lia|].
      destruct (c0 !! types.UID plugin); [lia|done].
Qed.

End CatalogFacts.

(** ** The claims about passes over the catalog store *)

Section CatalogClaims.

Variable ParseBytes : string -> error + v1yaml.Config.
Variable filepath_Dir : string -> string.
Variable filepath_Join : string -> string -> string.

Abbreviation traverseC :=
  (traverseAndUpsertPlugins (S:=catalog) ParseBytes filepath_Dir filepath_Join).
Abbreviation descriptorsOf := (descriptors ParseBytes filepath_Dir filepath_Join).


Lemma omap_pointwise {A B} (f g : A -> option B) (l : list A) :
  (forall x, f x = g x) -> omap f l = omap g l.
Proof. intros Hfg. induction l as [|x l IH]; [done|]. csimpl. by rewrite Hfg, IH. Qed.




(** A whole pass over an archive whose descriptors have pairwise distinct
    identifiers. *)
Lemma traverse_catalog rc (w : World catalog) :
  NoDup (types.UID <$> descriptorsOf rc (zip.rc_File rc)) ->
  exists w',
    traverseC rc w =
      (None, w',
       length (filter (fun p => store w !! types.UID p = None)
                 (descriptorsOf rc (zip.rc_File rc))))
    /\ store w' = list_to_map (entryOf <$> descriptorsOf rc (zip.rc_File rc)) ∪ store w
    /\ forall pluginMap,
         (forall k, pluginMap !! k = Catalog.descriptor k <$> store w !! k) ->
         calls w' = calls w ++ CallListAll
                      :: omap (decision pluginMap) (descriptorsOf rc (zip.rc_File rc)).
Proof.
  intros Hnd. unfold traverseAndUpsertPlugins, onStore.
  cbn [ListAll Catalog.store Catalog.listAll].
  set (plugins := uncurry Catalog.descriptor <$> map_to_list (store w)).
  assert (forall k, indexPlugins plugins !! k = Catalog.descriptor k <$> store w !! k) as Hidx.
  { intros k. by apply indexPlugins_listAll. }
  set (w0 := mkWorld (store w) (calls w ++ [CallListAll]) (logs w) (files w)).
  pose proof (upsertAll_catalog ParseBytes filepath_Dir filepath_Join (store w)
                (indexPlugins plugins) rc (zip.rc_File rc) w0 0 Hidx Hnd
                (fun p _ => eq_refl)) as Hcat.
  destruct (upsertAll_calls ParseBytes filepath_Dir filepath_Join (indexPlugins plugins) rc
              (zip.rc_File rc) w0 0) as (w' & cnt' & Hrun & Hcalls).
  rewrite Hrun in Hcat |- *. destruct Hcat as [Hstore ->].
  eexists. split; [done|]. split; [done|].
  intros pluginMap Hmap. cbn [calls log]. rewrite Hcalls. cbn [calls w0].
  rewrite <- app_assoc. cbn [app]. do 2 f_equal.
  apply omap_pointwise. intros p.
  unfold decision. by rewrite Hidx, Hmap.
Qed.



(** C9.  A pass leaves alone every identifier that is not the identifier
    of a descriptor parsed from the archive: the catalog holds under it
    after the pass what it held before, and every call of the pass after
    ListAll is a Create or an Update of a descriptor with another
    identifier. *)
Theorem pass_leaves_other_identifiers (rc : zip.ReadCloser) (w : World catalog) (k : string) :
  k ∉ types.UID <$> descriptorsOf rc (zip.rc_File rc) ->
  let '(_, w', _) := traverseC rc w in
  store w' !! k = store w !! k
  /\ exists made,
       calls w' = calls w ++ CallListAll :: made
       /\ Forall (fun c => match c with
                           | CallCreate p | CallUpdate p => types.UID p <> k
                           | _ => False
                           end) made.
Proof.
  intros Hk. unfold traverseAndUpsertPlugins, onStore.
  cbn [ListAll Catalog.store Catalog.listAll].
  set (pluginMap := indexPlugins _).
  set (w0 := mkWorld (store w) (calls w ++ [CallListAll]) (logs w) (files w)).
  pose proof (upsertAll_frame ParseBytes filepath_Dir filepath_Join pluginMap rc
                (zip.rc_File rc) w0 0 k Hk) as Hframe.
  destruct (upsertAll_calls ParseBytes filepath_Dir filepath_Join pluginMap rc
              (zip.rc_File rc) w0 0) as (w' & cnt' & Hrun & Hcalls).
  rewrite Hrun in Hframe |- *. cbn [fst snd store calls log] in *.
  split; [done|]. eexists. split.
  - rewrite Hcalls. cbn [calls w0]. by rewrite <- app_assoc.
  - apply Forall_forall. intros c [p [Hp Hdec]]%list_elem_of_omap.
    assert (types.UID p <> k) as Hne.
    { intros <-. apply Hk. by apply list_elem_of_fmap_2. }
    unfold decision in Hdec. destruct (pluginMap !! types.UID p) as [q|].
    + destruct (types.Matches q p); [done|]. by injection Hdec as <-.
    + by injection Hdec as <-.
Qed.

End CatalogClaims.

(** ** Fetching over HTTP *)

Section DownloadClaims.

Context {S : Type} `{PluginStore S}.
Variable http_Get : string -> error + http.Response.
Variable os_Create : string -> option error.


End DownloadClaims.

(** ** Further properties of the manager, for any store *)

Section ManagerProperties.

Context {S : Type} `{PluginStore S}.
Variable ParseBytes : string -> error + v1yaml.Config.
Variable filepath_Dir : string -> string.
Variable filepath_Join : string -> string -> string.

Abbreviation readEntryP := (readEntry ParseBytes filepath_Dir filepath_Join).
Abbreviation upsertAllP := (upsertAll ParseBytes filepath_Dir filepath_Join).
Abbreviation descriptorsP := (descriptors ParseBytes filepath_Dir filepath_Join).
Abbreviation traverseP := (traverseAndUpsertPlugins ParseBytes filepath_Dir filepath_Join).

(** X1.  The loop passes over an entry without a trace, neither opening it
    nor logging anything, exactly when its name is not one directory, then
    [plugins], then one directory, then a file ending in [.yaml]. *)
Theorem readEntry_silent_iff_not_selected (rc : zip.ReadCloser) (file : zip.File) :
  readEntryP rc file = Skipped [] <-> ~ selected (zip.Name file).
Proof.
  unfold selected. rewrite <- Match_pluginsPattern. unfold readEntry.
  destruct (Match_total pluginsPattern (zip.Name file)) as [matched ->].
  destruct matched; [|split; [discriminate|done]].
  split; [|done]. intros Hskip. exfalso.
  destruct (zip.Open file); try discriminate.
  destruct (ParseBytes data) as [|config]; [discriminate|].
  destruct (v1yaml.Spec config); try discriminate;
    by destruct (readLogo _ _ _ _ _).
Qed.

(** X2.  What a descriptor is made of.  When the loop builds a descriptor
    from an entry, the entry's name is selected, its contents were read in
    full and parsed, the parsed manifest is a step or a stage plugin, and
    the descriptor carries the manifest's name as identifier, its type, the
    description of the variant, the bytes read, verbatim, as specification,
    and as logo either nothing or the contents of [logo.svg] next to the
    entry. *)
Theorem readEntry_descriptor_inv
    (rc : zip.ReadCloser) (file : zip.File) (warnings : list LogEntry) (plugin : types.Plugin) :
  readEntryP rc file = Descriptor warnings plugin ->
  selected (zip.Name file)
  /\ exists buf config desc,
       zip.Open file = Contents buf
       /\ ParseBytes buf = inr config
       /\ (v1yaml.Spec config = v1yaml.PluginStep desc
           \/ v1yaml.Spec config = v1yaml.PluginStage desc)
       /\ types.UID plugin = v1yaml.Name config
       /\ types.Typ plugin = v1yaml.Typ config
       /\ types.Description plugin = desc
       /\ types.Spec plugin = buf
       /\ (types.Logo plugin = ""
           \/ zip.rc_Open rc (filepath_Join (filepath_Dir (zip.Name file)) "logo.svg")
              = Contents (types.Logo plugin)).
Proof.
  unfold selected. rewrite <- Match_pluginsPattern. unfold readEntry.
  destruct (filepath.Match pluginsPattern (zip.Name file)) as [[]|]; try discriminate.
  destruct (zip.Open file) as [?|?|buf]; try discriminate.
  destruct (ParseBytes buf) as [|config] eqn:Hparse; [discriminate|].
  assert (forall desc,
    (let '(warnings0, plugin0) :=
       readLogo filepath_Dir filepath_Join rc (zip.Name file)
         (types.mkPlugin (v1yaml.Name config) desc (v1yaml.Typ config) buf "") in
     Descriptor warnings0 plugin0) = Descriptor warnings plugin ->
    types.UID plugin = v1yaml.Name config
    /\ types.Typ plugin = v1yaml.Typ config
    /\ types.Description plugin = desc
    /\ types.Spec plugin = buf
    /\ (types.Logo plugin = ""
        \/ zip.rc_Open rc (filepath_Join (filepath_Dir (zip.Name file)) "logo.svg")
           = Contents (types.Logo plugin))) as Hbuild.
  { intros desc. unfold readLogo.
    destruct (zip.rc_Open rc _) as [?|?|lbuf] eqn:Hlogo; intros [= <- <-]; simpl; eauto 10. }
  destruct (v1yaml.Spec config) as [desc|desc|] eqn:Hspec; try discriminate;
    intros Hd; (split; [done|]); exists buf, config, desc;
    (split; [done|]); (split; [done|]); (split; [eauto|]); by apply Hbuild.
Qed.

(** X3.  The logo never stands in the way of a descriptor.  For a selected
    entry whose contents parse as a step or stage plugin, a descriptor is
    built whatever becomes of [logo.svg]: when it cannot be opened the logo
    is empty and nothing is logged; when it cannot be read the logo is empty
    and one warning is logged; otherwise the logo is its contents. *)
Theorem readEntry_logo
    (rc : zip.ReadCloser) (file : zip.File) (buf desc : string) (config : v1yaml.Config) :
  selected (zip.Name file) ->
  zip.Open file = Contents buf ->
  ParseBytes buf = inr config ->
  v1yaml.Spec config = v1yaml.PluginStep desc \/ v1yaml.Spec config = v1yaml.PluginStage desc ->
  readEntryP rc file =
    match zip.rc_Open rc (filepath_Join (filepath_Dir (zip.Name file)) "logo.svg") with
    | OpenFails _ =>
        Descriptor [] (types.mkPlugin (v1yaml.Name config) desc (v1yaml.Typ config) buf "")
    | CopyFails err =>
        Descriptor [warn (Some err) (zip.Name file) "could not copy logo file"]
          (types.mkPlugin (v1yaml.Name config) desc (v1yaml.Typ config) buf "")
    | Contents lbuf =>
        Descriptor [] (types.mkPlugin (v1yaml.Name config) desc (v1yaml.Typ config) buf lbuf)
    end.
Proof.
  unfold selected. rewrite <- Match_pluginsPattern. intros Hsel Hopen Hparse Hspec.
  unfold readEntry, readLogo. rewrite Hsel, Hopen, Hparse.
  destruct Hspec as [-> | ->];
    by destruct (zip.rc_Open rc _).
Qed.

(** X4.  The index holds, under an identifier, the last listed plugin with
    that identifier, and nothing under an identifier that no listed plugin
    has. *)
Theorem indexPlugins_last (plugins : list types.Plugin) (k : string) :
  indexPlugins plugins !! k = last (filter (fun p => types.UID p = k) plugins).
Proof.
  unfold indexPlugins.
  assert (forall m : gmap string types.Plugin,
    foldl (fun pluginMap p => <[types.UID p := p]> pluginMap) m plugins !! k =
      match last (filter (fun p => types.UID p = k) plugins) with
      | Some p => Some p
      | None => m !! k
      end) as Hfold.
  { induction plugins as [|p plugins IH]; intros m; [done|].
    cbn [foldl]. rewrite IH, filter_cons.
    destruct (decide (types.UID p = k)) as [<-|Hne].
    - rewrite last_cons, lookup_insert_eq. by destruct (last _).
    - by rewrite lookup_insert_ne. }
  rewrite Hfold, lookup_empty. by destruct (last _).
Qed.

(** The loop in full: it does not fail, it leaves the files alone, it only
    adds to the log, the calls it makes are the index's decisions, and the
    counter grows by at most the number of Create calls. *)
Lemma upsertAll_run pluginMap rc entries (w : World S) cnt :
  exists w' cnt',
    upsertAllP pluginMap rc entries w cnt = (None, w', cnt')
    /\ calls w' = calls w ++ omap (decision pluginMap) (descriptorsP rc entries)
    /\ files w' = files w
    /\ (exists added, logs w' = logs w ++ added)
    /\ cnt <= cnt'
    /\ cnt' <= cnt + length (filter (fun c => isCreate c = true)
                               (omap (decision pluginMap) (descriptorsP rc entries))).
Proof.
  revert w cnt. induction entries as [|file entries IH]; intros w cnt.
  { exists w, cnt. cbn. rewrite !app_nil_r. split; [done|]. split; [done|]. split; [done|].
    split; [by exists []; rewrite app_nil_r|]. lia. }
  pose proof (readEntry_no_BadPattern ParseBytes filepath_Dir filepath_Join rc file) as Hbad.
  unfold descriptors in *. cbn [upsertAll omap list_omap].
  destruct (readEntry _ _ _ rc file) as [err|warnings|warnings plugin]; cbn [descriptorOf].
  - by destruct (Hbad err).
  - destruct (IH (logAll warnings w) cnt) as (w' & cnt' & -> & Hc & Hf & [added Hl] & Hlo & Hhi).
    exists w', cnt'. split; [done|]. split; [done|]. split; [done|].
    split; [|done]. exists (warnings ++ added). rewrite Hl. cbn. by rewrite app_assoc.
  - assert (exists w1 cnt1,
        upsert pluginMap (zip.Name file) plugin (logAll warnings w) cnt = (w1, cnt1)
        /\ calls w1 = calls w ++ option_list (decision pluginMap plugin)
        /\ files w1 = files w
        /\ (exists added, logs w1 = logs w ++ added)
        /\ cnt <= cnt1
        /\ cnt1 <= cnt + length (filter (fun c => isCreate c = true)
                                   (option_list (decision pluginMap plugin)))) as Hstep.
    { unfold upsert, decision, onStore.
      destruct (pluginMap !! types.UID plugin) as [p|].
      - destruct (types.Matches p plugin).
        + eexists _, _. split; [done|]. cbn. rewrite app_nil_r.
          split; [done|]. split; [done|]. split; [by eexists|]. lia.
        + destruct (Update plugin (store (logAll warnings w))) as [[err|] s];
            eexists _, _; (split; [done|]); cbn; (split; [done|]); (split; [done|]);
            (split; [rewrite <- app_assoc; by eexists|]); lia.
      - destruct (Create plugin (store (logAll warnings w))) as [[err|] s];
          eexists _, _; (split; [done|]); cbn; (split; [done|]); (split; [done|]).
        + split; [rewrite <- app_assoc; by eexists|]. lia.
        + split; [by eexists|]. destruct (decide (true = true)); [cbn; lia|done]. }
    destruct Hstep as (w1 & cnt1 & -> & Hc1 & Hf1 & [added1 Hl1] & Hlo1 & Hhi1).
    destruct (IH w1 cnt1) as (w' & cnt' & -> & Hc & Hf & [added Hl] & Hlo & Hhi).
    exists w', cnt'. split; [done|].
    split. { rewrite Hc, Hc1. csimpl. destruct (decision pluginMap plugin); cbn; by rewrite <- ?app_assoc. }
    split. { by rewrite Hf. }
    split. { exists (added1 ++ added). by rewrite Hl, Hl1, app_assoc. }
    split; [lia|].
    csimpl. destruct (decision pluginMap plugin) as [c|].
    + change (option_list (Some c)) with [c] in Hhi1.
      rewrite filter_cons. rewrite filter_cons, filter_nil in Hhi1.
      destruct (decide (isCreate c = true)); cbn [length] in *; lia.
    + change (option_list None) with (@nil StoreCall) in Hhi1.
      rewrite filter_nil in Hhi1. cbn [length] in Hhi1. lia.
Qed.

Lemma decision_isWrite pluginMap (ds : list types.Plugin) :
  Forall isWrite (omap (decision pluginMap) ds).
Proof.
  apply Forall_forall. intros c [p [_ Hdec]]%list_elem_of_omap. unfold decision in Hdec.
  destruct (pluginMap !! types.UID p) as [q|].
  - destruct (types.Matches q p); [done|]. by injection Hdec as <-.
  - by injection Hdec as <-.
Qed.

Lemma length_omap_le {A B} (f : A -> option B) (l : list A) : length (omap f l) <= length l.
Proof. induction l as [|x l IH]; [done|]. csimpl. destruct (f x); simpl; lia. Qed.

(** X5.  A pass fails exactly when listing the catalog fails.  In that case
    ListAll is the only call made, nothing is logged and no entry is
    counted.  Otherwise the pass returns no error, whatever happened to single
    entries or to single Create and Update calls, and the last thing it
    logs is the number of entries it added. *)
Theorem pass_fails_iff_ListAll_fails (rc : zip.ReadCloser) (w : World S) :
  let '(err, w', cnt) := traverseP rc w in
  match (ListAll (store w)).1 with
  | inl e =>
      err = Some (Errorf "could not list plugins" e)
      /\ calls w' = calls w ++ [CallListAll] /\ logs w' = logs w /\ cnt = 0
  | inr _ =>
      err = None /\ exists earlier, logs w' = logs w ++ earlier ++ [addedEntries cnt]
  end.
Proof.
  unfold traverseAndUpsertPlugins, onStore.
  destruct (ListAll (store w)) as [[e|plugins] s]; cbn [fst]; [done|].
  destruct (upsertAll_run (indexPlugins plugins) rc (zip.rc_File rc)
              (mkWorld s (calls w ++ [CallListAll]) (logs w) (files w)) 0)
    as (w' & cnt' & -> & _ & _ & [added Hl] & _).
  split; [done|]. exists added. cbn in *. by rewrite Hl, <- app_assoc.
Qed.

(** X6.  The shape of a pass on the store: ListAll first, then only Create
    and Update calls, at most one for each entry of the archive; Find is
    never called and ListAll never again.  The counter is at most the
    number of Create calls, and the pass leaves the local files alone. *)
Theorem pass_calls_shape (rc : zip.ReadCloser) (w : World S) :
  let '(_, w', cnt) := traverseP rc w in
  files w' = files w
  /\ exists made,
       calls w' = calls w ++ CallListAll :: made
       /\ Forall isWrite made
       /\ length made <= length (zip.rc_File rc)
       /\ cnt <= length (filter (fun c => isCreate c = true) made).
Proof.
  unfold traverseAndUpsertPlugins, onStore.
  destruct (ListAll (store w)) as [[e|plugins] s].
  { split; [done|]. exists []. cbn. split; [done|]. split; [done|]. lia. }
  destruct (upsertAll_run (indexPlugins plugins) rc (zip.rc_File rc)
              (mkWorld s (calls w ++ [CallListAll]) (logs w) (files w)) 0)
    as (w' & cnt' & -> & Hc & Hf & _ & _ & Hhi).
  split; [done|]. eexists. cbn in *. split; [by rewrite Hc, <- app_assoc|].
  split; [apply decision_isWrite|]. split; [|lia].
  etrans; [apply length_omap_le|]. unfold descriptors. apply length_omap_le.
Qed.

(** X7.  The lookup closure returns a manifest exactly when the query is for
    kind "plugin" and type "step", the store's Find, called with the very
    name and version of the query, succeeds, and the specification of the
    plugin found parses; the world then differs by that one call. *)
Theorem Lookup_success_iff
    (name kind typ version : string) (w w' : World S) (config : v1yaml.Config) :
  Lookup ParseBytes name kind typ version w = (inr config, w') <->
  kind = "plugin" /\ typ = "step"
  /\ exists plugin s,
       Find name version (store w) = (inr plugin, s)
       /\ ParseBytes (types.Spec plugin) = inr config
       /\ w' = mkWorld s (calls w ++ [CallFind name version]) (logs w) (files w).
Proof.
  unfold Lookup, onStore.
  destruct (String.eqb_spec kind "plugin") as [->|Hk]; cbn [negb];
    [|split; [discriminate|by intros [? _]]].
  destruct (String.eqb_spec typ "step") as [->|Ht]; cbn [negb];
    [|split; [discriminate|by intros (_ & ? & _)]].
  destruct (Find name version (store w)) as [[err|plugin] s].
  { split; [discriminate|]. by intros (_ & _ & ? & ? & [= ] & _). }
  destruct (ParseBytes (types.Spec plugin)) as [err|config'] eqn:Hparse.
  { split; [discriminate|]. intros (_ & _ & ? & ? & [= <- <-] & Hp & _). congruence. }
  split.
  - intros [= <- <-]. eauto 10.
  - intros (_ & _ & ? & ? & [= <- <-] & Hp & ->). congruence.
Qed.

End ManagerProperties.

(** ** Properties of [Populate] and [downloadZip], for any store *)

Section PopulateProperties.

Context {S : Type} `{PluginStore S}.
Variable ParseBytes : string -> error + v1yaml.Config.
Variable filepath_Dir : string -> string.
Variable filepath_Join : string -> string -> string.
Variable http_Get : string -> error + http.Response.
Variable os_CreateTemp : gmap string string -> error + string.
Variable os_Create : string -> option error.
Variable zip_Reader : string -> error + zip.ReadCloser.

(** A second transport and operating system, to compare with. *)
Variable http_Get' : string -> error + http.Response.
Variable os_CreateTemp' : gmap string string -> error + string.
Variable os_Create' : string -> option error.

Abbreviation downloadZipP := (downloadZip http_Get os_Create).
Abbreviation openAndUpsertP :=
  (openAndUpsert ParseBytes filepath_Dir filepath_Join zip_Reader).
Abbreviation PopulateP :=
  (Populate ParseBytes filepath_Dir filepath_Join http_Get os_CreateTemp os_Create zip_Reader).

(** X8.  [downloadZip] touches nothing but the file at [path]: the store,
    the record of calls, the log and every other file stay as they are;
    and when the request fails or the file cannot be created, that file
    stays as it is too. *)
Theorem downloadZip_frame (url path : string) (w : World S) :
  let w' := (downloadZipP url path w).2 in
  store w' = store w /\ calls w' = calls w /\ logs w' = logs w
  /\ (forall k, k <> path -> files w' !! k = files w !! k)
  /\ ((exists e, http_Get url = inl e) \/ (exists e, os_Create path = Some e) -> w' = w).
Proof.
  unfold downloadZip. destruct (http_Get url) as [e|response]; cbn.
  { repeat split; done. }
  destruct (os_Create path) as [e|]; cbn.
  { repeat split; done. }
  assert (forall k, k <> path ->
            <[path:=http.Body response]> (<[path:=""]> (files w)) !! k = files w !! k) as Hk.
  { intros k Hne. by rewrite !lookup_insert_ne. }
  destruct (http.BodyErr response); cbn; repeat split; try done;
    by intros [[? [=]]|[? [=]]].
Qed.

(** What opening the zip and upserting does to the world. *)
Lemma openAndUpsert_shape (path : string) (w : World S) :
  exists err w' made,
    openAndUpsertP path w = (err, w')
    /\ files w' = files w
    /\ calls w' = calls w ++ made
    /\ (made = [] /\ store w' = store w /\ err <> None
        \/ exists tl, made = CallListAll :: tl /\ Forall isWrite tl).
Proof.
  unfold openAndUpsert.
  destruct (match files w !! path with
            | Some bytes => zip_Reader bytes
            | None => inl "no such file or directory"
            end) as [e|zipFile].
  { exists (Some (Errorf "could not open zip for reading" e)), w, [].
    rewrite app_nil_r. split; [done|]. split; [done|]. split; [done|]. left. done. }
  unfold traverseAndUpsertPlugins, onStore.
  destruct (ListAll (store w)) as [[e|plugins] s].
  { eexists _, _, [CallListAll]. split; [done|]. split; [done|]. split; [done|].
    right. by exists []. }
  destruct (upsertAll_run ParseBytes filepath_Dir filepath_Join (indexPlugins plugins) zipFile
              (zip.rc_File zipFile)
              (mkWorld s (calls w ++ [CallListAll]) (logs w) (files w)) 0)
    as (w' & cnt' & -> & Hc & Hf & _).
  eexists _, _, _. split; [done|]. cbn in *. split; [done|].
  split; [by rewrite Hc, <- app_assoc|]. right. eexists. split; [done|].
  apply decision_isWrite.
Qed.

(** X9.  When the configured path is not a local file and a temporary file
    [f] was created for the download, that file is gone when [Populate]
    returns, on every way out (failed download, unreadable zip, failed or
    successful pass), and all other files are as they were. *)
Theorem Populate_removes_temp_file (path f : string) (w : World S) :
  path <> "" ->
  files w !! path = None ->
  os_CreateTemp (files w) = inr f ->
  files (PopulateP path w).2 = delete f (files w).
Proof.
  intros Hpath Hremote Htemp. unfold Populate.
  destruct (String.eqb_spec path "") as [|_]; [done|]. rewrite Hremote, Htemp.
  set (w0 := setFiles (<[f:=""]> (files w)) w).
  pose proof (downloadZip_frame path f w0) as (_ & _ & _ & Hother & _).
  destruct (downloadZipP path f w0) as [[e|] w1] eqn:Hdl; cbn [snd] in Hother.
  - cbn. apply map_eq. intros k. destruct (decide (k = f)) as [->|Hne].
    + by rewrite !lookup_delete_eq.
    + rewrite !lookup_delete_ne by done. rewrite Hother by done.
      subst w0. cbn. by rewrite lookup_insert_ne.
  - destruct (openAndUpsert_shape f w1) as (err & w2 & made & -> & Hf & _).
    cbn. rewrite Hf. apply map_eq. intros k. destruct (decide (k = f)) as [->|Hne].
    + by rewrite !lookup_delete_eq.
    + rewrite !lookup_delete_ne by done. rewrite Hother by done.
      subst w0. cbn. by rewrite lookup_insert_ne.
Qed.

(** X10.  When the configured path is a local file, [Populate] does not
    depend on the transport or on the creation of files at all, and leaves
    the local files as they are. *)
Theorem Populate_local_needs_no_transport (path bytes : string) (w : World S) :
  files w !! path = Some bytes ->
  PopulateP path w =
    Populate ParseBytes filepath_Dir filepath_Join http_Get' os_CreateTemp' os_Create'
      zip_Reader path w
  /\ files (PopulateP path w).2 = files w.
Proof.
  intros Hlocal. unfold Populate. destruct (String.eqb path ""); [done|].
  rewrite Hlocal. split; [done|].
  by destruct (openAndUpsert_shape path w) as (err & w' & made & -> & Hf & _).
Qed.

(** X11.  The store sees of [Populate] either nothing, and then [Populate]
    returns an error and the store is as it was, or a pass: ListAll first,
    then only Create and Update calls. *)
Theorem Populate_calls_shape (path : string) (w : World S) :
  let '(err, w') := PopulateP path w in
  exists made,
    calls w' = calls w ++ made
    /\ (made = [] /\ store w' = store w /\ err <> None
        \/ exists tl, made = CallListAll :: tl /\ Forall isWrite tl).
Proof.
  unfold Populate. destruct (String.eqb path "").
  { exists []. rewrite app_nil_r. split; [done|]. by left. }
  destruct (files w !! path) as [bytes|].
  { destruct (openAndUpsert_shape path w) as (err & w' & made & -> & _ & Hc & Hmade). eauto. }
  destruct (os_CreateTemp (files w)) as [e|f].
  { exists []. rewrite app_nil_r. split; [done|]. by left. }
  set (w0 := setFiles (<[f:=""]> (files w)) w).
  pose proof (downloadZip_frame path f w0) as (Hs & Hc & _).
  destruct (downloadZipP path f w0) as [[e|] w1]; cbn [snd] in Hs, Hc.
  - exists []. cbn. rewrite app_nil_r, Hs, Hc. split; [done|]. by left.
  - destruct (openAndUpsert_shape f w1) as (err & w2 & made & -> & _ & Hc2 & Hmade).
    exists made. cbn. rewrite Hc2, Hc. split; [done|].
    destruct Hmade as [(-> & Hs2 & Herr)|Hpass]; [left|by right].
    by rewrite Hs2, Hs.
Qed.

End PopulateProperties.

(** ** Properties of passes over the catalog store *)

Section CatalogProperties.

Variable ParseBytes : string -> error + v1yaml.Config.
Variable filepath_Dir : string -> string.
Variable filepath_Join : string -> string -> string.

Abbreviation traverseK :=
  (traverseAndUpsertPlugins (S:=catalog) ParseBytes filepath_Dir filepath_Join).
Abbreviation upsertAllK := (upsertAll (S:=catalog) ParseBytes filepath_Dir filepath_Join).
Abbreviation descriptorsK := (descriptors ParseBytes filepath_Dir filepath_Join).




(** One descriptor of [ds], against the index of catalog [c0]: an entry of
    the catalog is as in [c0] or filed from [ds], before and after; the
    descriptor's identifier is filed from [ds] afterwards; what was filed
    or present stays so. *)
Lemma upsert_filed (c0 : catalog) ds pluginMap name plugin (w : World catalog) cnt :
  (forall k, pluginMap !! k = Catalog.descriptor k <$> c0 !! k) ->
  plugin ∈ ds ->
  (forall k, store w !! k = c0 !! k \/ filedFrom ds k (store w)) ->
  let w' := (upsert pluginMap name plugin w cnt).1 in
  (forall k, store w' !! k = c0 !! k \/ filedFrom ds k (store w'))
  /\ filedFrom ds (types.UID plugin) (store w')
  /\ (forall k, filedFrom ds k (store w) -> filedFrom ds k (store w'))
  /\ (forall k, is_Some (store w !! k) -> is_Some (store w' !! k)).
Proof.
  intros Hidx Hin Hinv.
  assert (filedFrom ds (types.UID plugin)
            (<[types.UID plugin := types.contentIdentity plugin]> (store w))) as Hnew.
  { exists plugin. by rewrite lookup_insert_eq. }
  assert (forall k, filedFrom ds k (store w) ->
            filedFrom ds k (<[types.UID plugin := types.contentIdentity plugin]> (store w)))
    as Hkeep.
  { intros k (q & Hq & Hk & Hlook). destruct (decide (types.UID plugin = k)) as [<-|Hne].
    - done.
    - exists q. by rewrite lookup_insert_ne. }
  assert ((forall k, <[types.UID plugin := types.contentIdentity plugin]> (store w) !! k
                     = c0 !! k
                     \/ filedFrom ds k
                          (<[types.UID plugin := types.contentIdentity plugin]> (store w)))
          /\ forall k, is_Some (store w !! k) ->
               is_Some (<[types.UID plugin := types.contentIdentity plugin]> (store w) !! k))
    as [Hinv' Hsome'].
  { split; intros k.
    - destruct (decide (types.UID plugin = k)) as [<-|Hne]; [by right|].
      destruct (Hinv k) as [?|?]; [left; by rewrite lookup_insert_ne|right; by apply Hkeep].
    - intros Hs. apply lookup_insert_is_Some.
      destruct (decide (types.UID plugin = k)); [by left|by right]. }
  unfold upsert, onStore; cbn. unfold Catalog.update, Catalog.create. rewrite Hidx.
  destruct (c0 !! types.UID plugin) as [v|] eqn:Hc0; cbn.
  - destruct (types.Matches (Catalog.descriptor (types.UID plugin) v) plugin) eqn:Hm; cbn.
    + apply Matches_contentIdentity in Hm. rewrite contentIdentity_descriptor in Hm. subst v.
      split; [done|]. split; [|done].
      destruct (Hinv (types.UID plugin)) as [Hsame|?]; [|done].
      exists plugin. by rewrite Hsame, Hc0.
    + destruct (store w !! types.UID plugin) as [v'|] eqn:Hcur; cbn; [done|].
      destruct (Hinv (types.UID plugin)) as [Hsame|(q & _ & _ & Hq)]; congruence.
  - destruct (store w !! types.UID plugin) as [v'|] eqn:Hcur; cbn; [|done].
    split; [done|]. split; [|done].
    destruct (Hinv (types.UID plugin)) as [Hsame|?]; [congruence|done].
Qed.

Lemma upsertAll_filed (c0 : catalog) ds pluginMap rc entries (w : World catalog) cnt :
  (forall k, pluginMap !! k = Catalog.descriptor k <$> c0 !! k) ->
  (forall p, p ∈ descriptorsK rc entries -> p ∈ ds) ->
  (forall k, store w !! k = c0 !! k \/ filedFrom ds k (store w)) ->
  let w' := (upsertAllK pluginMap rc entries w cnt).1.2 in
  (forall k, store w' !! k = c0 !! k \/ filedFrom ds k (store w'))
  /\ (forall p, p ∈ descriptorsK rc entries -> filedFrom ds (types.UID p) (store w'))
  /\ (forall k, filedFrom ds k (store w) -> filedFrom ds k (store w'))
  /\ (forall k, is_Some (store w !! k) -> is_Some (store w' !! k)).
Proof.
  intros Hidx. revert w cnt.
  induction entries as [|file entries IH]; intros w cnt Hsub Hinv.
  { cbn. split; [done|]. split; [|done]. intros p Hp. by apply elem_of_nil in Hp. }
  rewrite upsertAll_cons. rewrite descriptors_cons in Hsub |- *.
  pose proof (readEntry_no_BadPattern ParseBytes filepath_Dir filepath_Join rc file) as Hbad.
  destruct (readEntry _ _ _ rc file) as [err|warnings|warnings plugin];
    cbn [descriptorOf] in Hsub |- *.
  - by destruct (Hbad err).
  - exact (IH (logAll warnings w) cnt Hsub Hinv).
  - pose proof (upsert_filed c0 ds pluginMap (zip.Name file) plugin (logAll warnings w) cnt
                  Hidx (Hsub plugin ltac:(left)) Hinv) as Hstep.
    destruct (upsert pluginMap (zip.Name file) plugin (logAll warnings w) cnt) as [w1 cnt1].
    cbn [fst] in Hstep. destruct Hstep as (Hinv1 & Hnew1 & Hkeep1 & Hsome1).
    specialize (IH w1 cnt1 (fun p Hp => Hsub p ltac:(by right)) Hinv1).
    cbn zeta in IH. destruct IH as (Hinv' & Hnew' & Hkeep' & Hsome').
    split; [done|]. split; [|split].
    + intros p [->|Hp]%elem_of_cons; [by apply Hkeep'|by apply Hnew'].
    + intros k Hk. by apply Hkeep', Hkeep1.
    + intros k Hk. by apply Hsome', Hsome1.
Qed.

(** A pass in terms of the loop on the index of the catalog. *)
Lemma traverse_filed rc (w : World catalog) :
  let w' := (traverseK rc w).1.2 in
  (forall k, store w' !! k = store w !! k
             \/ filedFrom (descriptorsK rc (zip.rc_File rc)) k (store w'))
  /\ (forall p, p ∈ descriptorsK rc (zip.rc_File rc) ->
                filedFrom (descriptorsK rc (zip.rc_File rc)) (types.UID p) (store w'))
  /\ (forall k, is_Some (store w !! k) -> is_Some (store w' !! k)).
Proof.
  unfold traverseAndUpsertPlugins, onStore. cbn [ListAll Catalog.store Catalog.listAll].
  set (plugins := uncurry Catalog.descriptor <$> map_to_list (store w)).
  set (w0 := mkWorld (store w) (calls w ++ [CallListAll]) (logs w) (files w)).
  pose proof (upsertAll_filed (store w) (descriptorsK rc (zip.rc_File rc))
                (indexPlugins plugins) rc (zip.rc_File rc) w0 0
                (fun k => indexPlugins_listAll (store w) plugins k eq_refl)
                (fun p Hp => Hp) (fun k => or_introl eq_refl)) as Hloop.
  destruct (upsertAll_calls ParseBytes filepath_Dir filepath_Join (indexPlugins plugins) rc
              (zip.rc_File rc) w0 0) as (w' & cnt' & Hrun & _).
  rewrite Hrun in Hloop |- *. cbn in Hloop |- *.
  destruct Hloop as (Hinv & Hnew & _ & Hsome). done.
Qed.

(** X12.  After a pass every identifier carried by a descriptor of the
    archive is in the catalog, with the content of a descriptor of the
    archive that has this identifier, also when several entries share an
    identifier. *)
Theorem pass_files_every_identifier (rc : zip.ReadCloser) (w : World catalog) :
  Forall (fun p => filedFrom (descriptorsK rc (zip.rc_File rc)) (types.UID p)
                     (store (traverseK rc w).1.2))
    (descriptorsK rc (zip.rc_File rc)).
Proof. apply Forall_forall. intros p Hp. by apply traverse_filed. Qed.

(** X13.  A pass removes nothing: every identifier present before is
    present after, and what the catalog holds under an identifier after the
    pass is what it held before or the content of a descriptor of the
    archive with that identifier. *)
Theorem pass_only_adds_or_replaces (rc : zip.ReadCloser) (w : World catalog) (k : string) :
  (is_Some (store w !! k) -> is_Some (store (traverseK rc w).1.2 !! k))
  /\ (store (traverseK rc w).1.2 !! k = store w !! k
      \/ filedFrom (descriptorsK rc (zip.rc_File rc)) k (store (traverseK rc w).1.2)).
Proof.
  pose proof (traverse_filed rc w) as (Hinv & _ & Hsome). split; [apply Hsome|apply Hinv].
Qed.


(** X15.  When the descriptors of the archive have pairwise distinct
    identifiers, a pass returns no error, the catalog afterwards holds every
    descriptor's own content under its identifier, and the counter is the
    number of descriptors whose identifier the catalog did not hold
    before. *)
Theorem pass_result_for_distinct_identifiers (rc : zip.ReadCloser) (w : World catalog) :
  NoDup (types.UID <$> descriptorsK rc (zip.rc_File rc)) ->
  let '(err, w', cnt) := traverseK rc w in
  err = None
  /\ Forall (fun p => store w' !! types.UID p = Some (types.contentIdentity p))
       (descriptorsK rc (zip.rc_File rc))
  /\ cnt = length (filter (fun p => store w !! types.UID p = None)
                     (descriptorsK rc (zip.rc_File rc))).
Proof.
  intros Hnd. destruct (traverse_catalog ParseBytes filepath_Dir filepath_Join rc w Hnd)
    as (w' & -> & Hstore & _).
  split; [done|]. split; [|done]. apply Forall_forall. intros p Hp.
  rewrite Hstore. apply lookup_union_Some_l, elem_of_list_to_map_1.
  - by rewrite <- list_fmap_compose.
  - by apply (list_elem_of_fmap_2 entryOf).
Qed.

End CatalogProperties.

(** ** The definitions at concrete inputs *)

Module Examples.
Import Demo.

(** C1: what the pattern does select has exactly one directory before
    [plugins]. *)
Example manifest_below_one_directory_selected :
  readEntry parse dir join (archive [docker1]) docker1 = Descriptor [] pDocker1.
Proof. vm_compute. reflexivity. Qed.



(** C5, as stated, fails: both descriptors of this archive have an
    identifier that the index of the empty catalog does not hold, Create is
    called once for each, and the counter ends at 1: the second Create
    fails, the identifier being taken by then. *)
Lemma failed_create_is_not_counted :
  let '(_, w, cnt) := pass (archive [docker1; docker2]) (initial ∅) in
  descriptors parse dir join (archive [docker1; docker2]) [docker1; docker2]
    = [pDocker1; pDocker2]
  /\ indexPlugins [] !! types.UID pDocker1 = None
  /\ indexPlugins [] !! types.UID pDocker2 = None
  /\ calls w = [CallListAll; CallCreate pDocker1; CallCreate pDocker2]
  /\ cnt = 1.
Proof. vm_compute. done. Qed.




Lemma upsert_unchanged_makes_no_call_witness :
  dockerIndex !! types.UID pDocker1 = Some pDocker1
  /\ upsert dockerIndex (zip.Name docker1) pDocker1 (initial ∅) 0 = (initial ∅, 0).
Proof.
  split; [vm_compute; reflexivity|].
  apply (upsert_unchanged_makes_no_call dockerIndex (zip.Name docker1) pDocker1 pDocker1
           (initial ∅) 0).
  - vm_compute; reflexivity.
  - reflexivity.
Defined.

Lemma upsert_counts_successful_creates_witness :
  let '(w', cnt') := upsert ∅ (zip.Name docker1) pDocker1 (initial ∅) 0 in
  calls w' = calls (initial ∅) ++ [CallCreate pDocker1]
  /\ store w' = (Create pDocker1 (store (initial ∅))).2
  /\ cnt' = match (Create pDocker1 (store (initial ∅))).1 with
            | None => 0 + 1
            | Some _ => 0
            end.
Proof.
  apply (proj1 (upsert_counts_successful_creates ∅ (zip.Name docker1) pDocker1 (initial ∅) 0)).
  vm_compute; reflexivity.
Defined.

Lemma upsert_changed_updates_once_witness :
  types.contentIdentity pDocker1 <> types.contentIdentity pDocker2
  /\ exists w',
       upsert dockerIndex (zip.Name docker2) pDocker2 (logAll [] (initial dockerCatalog)) 0
         = (w', 0)
       /\ calls w' = calls (initial dockerCatalog) ++ [CallUpdate pDocker2]
       /\ store w' = (Update pDocker2 (store (initial dockerCatalog))).2
       /\ upsertAll parse dir join dockerIndex (archive [docker2; slack])
            [docker2; slack] (initial dockerCatalog) 0
          = upsertAll parse dir join dockerIndex (archive [docker2; slack]) [slack] w' 0.
Proof.
  split; [discriminate|].
  apply (upsert_changed_updates_once parse dir join dockerIndex (archive [docker2; slack])
           docker2 [slack] [] pDocker2 pDocker1 (initial dockerCatalog) 0).
  - vm_compute; reflexivity.
  - vm_compute; reflexivity.
  - discriminate.
Defined.

Lemma Lookup_reaches_store_only_for_step_plugins_witness :
  (exists err, Lookup parse "docker" "plugin" "stage" "1.0" (initial ∅) = (inl err, initial ∅))
  /\ calls (Lookup parse "docker" "plugin" "step" "1.0" (initial ∅)).2
     = calls (initial ∅) ++ [CallFind "docker" "1.0"].
Proof.
  split.
  - apply (proj1 (Lookup_reaches_store_only_for_step_plugins parse
                    "docker" "plugin" "stage" "1.0" (initial ∅))).
    right. discriminate.
  - apply (proj2 (Lookup_reaches_store_only_for_step_plugins parse
                    "docker" "plugin" "step" "1.0" (initial ∅))); reflexivity.
Defined.

Lemma pass_leaves_other_identifiers_witness :
  "slack" ∉ (types.UID <$> descriptors parse dir join (archive [docker2])
                             (zip.rc_File (archive [docker2])))
  /\ let '(_, w', _) := pass (archive [docker2]) (initial slackCatalog) in
     store w' !! "slack" = store (initial slackCatalog) !! "slack"
     /\ exists made,
          calls w' = calls (initial slackCatalog) ++ CallListAll :: made
          /\ Forall (fun c => match c with
                              | CallCreate p | CallUpdate p => types.UID p <> "slack"
                              | _ => False
                              end) made.
Proof.
  split; [compute_done|].
  apply (pass_leaves_other_identifiers parse dir join (archive [docker2])
           (initial slackCatalog) "slack").
  compute_done.
Defined.



End Examples.

(** ** The further properties at concrete inputs *)

Module MoreExamples.
Import Demo Fixtures.

Lemma docker1_selected : selected (zip.Name docker1).
Proof.
  exists "repo", "docker", "plugin". repeat split; vm_compute; reflexivity.
Qed.

Lemma readEntry_descriptor_inv_witness :
  readEntry parse dirname join withLogos docker1 = Descriptor [] dockerWithLogo
  /\ selected (zip.Name docker1)
  /\ exists buf config desc,
       zip.Open docker1 = Contents buf
       /\ parse buf = inr config
       /\ (v1yaml.Spec config = v1yaml.PluginStep desc
           \/ v1yaml.Spec config = v1yaml.PluginStage desc)
       /\ types.UID dockerWithLogo = v1yaml.Name config
       /\ types.Typ dockerWithLogo = v1yaml.Typ config
       /\ types.Description dockerWithLogo = desc
       /\ types.Spec dockerWithLogo = buf
       /\ (types.Logo dockerWithLogo = ""
           \/ zip.rc_Open withLogos (join (dirname (zip.Name docker1)) "logo.svg")
              = Contents (types.Logo dockerWithLogo)).
Proof.
  split; [vm_compute; reflexivity|].
  apply (readEntry_descriptor_inv parse dirname join withLogos docker1 [] dockerWithLogo).
  vm_compute; reflexivity.
Defined.

Lemma readEntry_logo_witness :
  zip.rc_Open withLogos (join (dirname (zip.Name docker1)) "logo.svg")
    = Contents "<svg>whale</svg>"
  /\ readEntry parse dirname join withLogos docker1 =
       match zip.rc_Open withLogos (join (dirname (zip.Name docker1)) "logo.svg") with
       | OpenFails _ =>
           Descriptor []
             (types.mkPlugin (v1yaml.Name dockerConfig) "build images"
                (v1yaml.Typ dockerConfig) "sdocker:build images" "")
       | CopyFails err =>
           Descriptor [warn (Some err) (zip.Name docker1) "could not copy logo file"]
             (types.mkPlugin (v1yaml.Name dockerConfig) "build images"
                (v1yaml.Typ dockerConfig) "sdocker:build images" "")
       | Contents lbuf =>
           Descriptor []
             (types.mkPlugin (v1yaml.Name dockerConfig) "build images"
                (v1yaml.Typ dockerConfig) "sdocker:build images" lbuf)
       end.
Proof.
  split; [vm_compute; reflexivity|].
  apply (readEntry_logo parse dirname join withLogos docker1 "sdocker:build images"
           "build images" dockerConfig).
  - exact docker1_selected.
  - reflexivity.
  - vm_compute; reflexivity.
  - left. reflexivity.
Defined.

Lemma Populate_removes_temp_file_witness :
  createTemp (files (initial ∅)) = inr "/tmp/plugins.zip123"
  /\ files (Populate parse dir join get404 createTemp create reader
             "https://example.com/plugins.zip" (initial ∅)).2
     = delete "/tmp/plugins.zip123" (files (initial ∅)).
Proof.
  split; [reflexivity|].
  apply (Populate_removes_temp_file parse dir join get404 createTemp create reader
           "https://example.com/plugins.zip" "/tmp/plugins.zip123" (initial ∅)).
  - discriminate.
  - vm_compute; reflexivity.
  - reflexivity.
Defined.

Lemma Populate_local_needs_no_transport_witness :
  files localWorld !! "/data/plugins.zip" = Some "PK: plugins"
  /\ Populate parse dir join get404 createTemp create reader "/data/plugins.zip" localWorld
     = Populate parse dir join getFails createTempFails createFails reader
         "/data/plugins.zip" localWorld
  /\ files (Populate parse dir join get404 createTemp create reader "/data/plugins.zip"
             localWorld).2
     = files localWorld.
Proof.
  split; [vm_compute; reflexivity|].
  apply (Populate_local_needs_no_transport parse dir join get404 createTemp create reader
           getFails createTempFails createFails "/data/plugins.zip" "PK: plugins" localWorld).
  vm_compute; reflexivity.
Defined.

Lemma pass_result_for_distinct_identifiers_witness :
  NoDup (types.UID <$> descriptors parse dir join (archive [docker1; slack])
                        (zip.rc_File (archive [docker1; slack])))
  /\ let '(err, w', cnt) := pass (archive [docker1; slack]) (initial dockerCatalog) in
     err = None
     /\ Forall (fun p => store w' !! types.UID p = Some (types.contentIdentity p))
          (descriptors parse dir join (archive [docker1; slack])
             (zip.rc_File (archive [docker1; slack])))
     /\ cnt = length (filter (fun p => store (initial dockerCatalog) !! types.UID p = None)
                       (descriptors parse dir join (archive [docker1; slack])
                          (zip.rc_File (archive [docker1; slack])))).
Proof.
  split; [compute_done|].
  apply (pass_result_for_distinct_identifiers parse dir join (archive [docker1; slack])
           (initial dockerCatalog)).
  compute_done.
Defined.

(** A pass on a store that is down: the only call is ListAll, and the pass
    fails. *)
Example pass_on_store_that_is_down :
  traverseAndUpsertPlugins (H:=downStore) parse dir join (archive [docker1])
    (mkWorld tt [] [] ∅)
  = (Some "could not list plugins: connection refused", mkWorld tt [CallListAll] [] ∅, 0).
Proof. vm_compute. reflexivity. Qed.

End MoreExamples.
